(** * Console Snake (game1.cpp): a shallow embedding of the game logic

    The program keeps its whole state in global variables ([width], [height],
    [gameOver], [score], [dir], [food], [snake]) and runs a frame loop
    [draw(); input(); logic(); sleep_ms(delay)].  The embedding threads the
    globals as one record, the pending keyboard bytes as a list, and the
    values returned by [rand()] as an infinite sequence.  [draw] only writes
    to the terminal and is left out. *)

From Stdlib Require Import ZArith List Bool Ascii Lia.
From Stdlib Require String DecimalString.
Import ListNotations.
Open Scope Z_scope.

(** ** Machine integers

    Every [int] of the program is a 32-bit two's-complement value.  Additions
    and subtractions are written with their wrap-around. *)

Module Int32.

Definition min_int : Z := -2147483648.
Definition max_int : Z := 2147483647.
Definition modulus : Z := 4294967296.

Definition in_range (z : Z) : Prop := min_int <= z <= max_int.

Definition wrap (z : Z) : Z := (z - min_int) mod modulus + min_int.

End Int32.

(** ** Data model *)

(** [pair<int,int>]: first component x, second component y. *)
Definition Cell : Type := (Z * Z)%type.

(** [enum Direction { STOP = 0, LEFT, RIGHT, UP, DOWN }] *)
Inductive Direction : Type := STOP | LEFT | RIGHT | UP | DOWN.

(** The global variables of the program.  [snake] is the deque, front (head
    of the list) is the head of the snake. *)
Record Game : Type := mkGame {
  width : Z;
  height : Z;
  gameOver : bool;
  score : Z;
  dir : Direction;
  food : Cell;
  snake : list Cell
}.

(** The globals as their initializers leave them before [main] runs. *)
Definition globals0 : Game :=
  {| width := 40; height := 20; gameOver := false; score := 0;
     dir := STOP; food := (0, 0); snake := [] |}.

Definition set_gameOver (b : bool) (g : Game) : Game :=
  {| width := width g; height := height g; gameOver := b; score := score g;
     dir := dir g; food := food g; snake := snake g |}.

Definition set_score (s : Z) (g : Game) : Game :=
  {| width := width g; height := height g; gameOver := gameOver g; score := s;
     dir := dir g; food := food g; snake := snake g |}.

Definition set_dir (d : Direction) (g : Game) : Game :=
  {| width := width g; height := height g; gameOver := gameOver g;
     score := score g; dir := d; food := food g; snake := snake g |}.

Definition set_food (c : Cell) (g : Game) : Game :=
  {| width := width g; height := height g; gameOver := gameOver g;
     score := score g; dir := dir g; food := c; snake := snake g |}.

Definition set_snake (s : list Cell) (g : Game) : Game :=
  {| width := width g; height := height g; gameOver := gameOver g;
     score := score g; dir := dir g; food := food g; snake := s |}.

(** ** Outcomes

    [Done] is a normal return.  [Undefined] marks an execution the language
    gives no meaning to ([front()] of an empty deque, [%] by zero).
    [OutOfFuel] says that a loop was still running when the fuel of the
    model ran out. *)
Inductive outcome (A : Type) : Type :=
| Done (a : A)
| Undefined
| OutOfFuel.

Arguments Done {A} a.
Arguments Undefined {A}.
Arguments OutOfFuel {A}.

(** ** The random number generator

    The values the successive calls of [rand()] return, in order.  [rand()]
    returns an [int] between 0 and [RAND_MAX], the latter at most the
    largest [int]. *)
Definition Rand : Type := nat -> Z.

Definition rand (r : Rand) : Z * Rand := (r O, fun n => r (S n)).

Definition rand_ok (r : Rand) : Prop := forall n, 0 <= r n <= Int32.max_int.

(** ** placeFood *)

(** The scan [for (auto &s : snake) if (s.first == x && s.second == y)]. *)
Definition onSnake (c : Cell) (body : list Cell) : bool :=
  existsb (fun s => (fst s =? fst c) && (snd s =? snd c)) body.

(** [while (true)] of [placeFood]: one unit of fuel per iteration.  [%] is
    the truncating remainder of C++, undefined for a zero divisor. *)
Fixpoint placeFood (fuel : nat) (r : Rand) (g : Game) : outcome (Rand * Game) :=
  match fuel with
  | O => OutOfFuel
  | S fuel' =>
      let (a, r1) := rand r in
      if width g =? 0 then Undefined else
      let fx := Z.rem a (width g) in
      let (b, r2) := rand r1 in
      if height g =? 0 then Undefined else
      let fy := Z.rem b (height g) in
      if onSnake (fx, fy) (snake g)
      then placeFood fuel' r2 g
      else Done (r2, set_food (fx, fy) g)
  end.

(** ** initGame

    [srand(time(nullptr))] starts a new random sequence, [seeded]; the
    terminal set-up has no effect on the globals. *)
Definition startBody (g : Game) : list Cell :=
  let sx := Z.quot (width g) 2 in
  let sy := Z.quot (height g) 2 in
  [ (sx, sy); (Int32.wrap (sx - 1), sy); (Int32.wrap (sx - 2), sy) ].

Definition initGame (fuel : nat) (seeded : Rand) (g : Game)
  : outcome (Rand * Game) :=
  let g1 := set_score 0 (set_dir RIGHT (set_snake (startBody g) g)) in
  match placeFood fuel seeded g1 with
  | Done (r', g2) => Done (r', set_gameOver false g2)
  | Undefined => Undefined
  | OutOfFuel => OutOfFuel
  end.

(** ** input *)

Inductive Platform : Type := Posix | Win32.

(** [kbhit_nonblocking()]: is a byte pending? *)
Definition kbhit_nonblocking (kb : list ascii) : bool :=
  match kb with [] => false | _ :: _ => true end.

(** [getch_nonblocking()]: the next pending byte, or 0 when there is none. *)
Definition getch_nonblocking (kb : list ascii) : ascii * list ascii :=
  match kb with
  | [] => (zero, [])
  | c :: rest => (c, rest)
  end.

Definition is_char (c : ascii) (code : nat) : bool :=
  Nat.eqb (nat_of_ascii c) code.

(** The branch for ['\033']: an arrow key arrives as ESC, '[', 'A'..'D'. *)
Definition input_escape (kb : list ascii) (g : Game) : list ascii * Game :=
  if kbhit_nonblocking kb then
    let (c2, kb2) := getch_nonblocking kb in
    if kbhit_nonblocking kb2 then
      let (c3, kb3) := getch_nonblocking kb2 in
      if Ascii.eqb c2 "["%char then
        if Ascii.eqb c3 "A"%char then (kb3, set_dir UP g)
        else if Ascii.eqb c3 "B"%char then (kb3, set_dir DOWN g)
        else if Ascii.eqb c3 "C"%char then (kb3, set_dir RIGHT g)
        else if Ascii.eqb c3 "D"%char then (kb3, set_dir LEFT g)
        else (kb3, g)
      else (kb3, g)
    else (kb2, g)
  else (kb, g).

(** The branch under [#ifdef _WIN32]: 0 or 224, then a scan code. *)
Definition input_win32 (kb : list ascii) (g : Game) : list ascii * Game :=
  if kbhit_nonblocking kb then
    let (code, kb2) := getch_nonblocking kb in
    if is_char code 72 then (kb2, set_dir UP g)
    else if is_char code 80 then (kb2, set_dir DOWN g)
    else if is_char code 77 then (kb2, set_dir RIGHT g)
    else if is_char code 75 then (kb2, set_dir LEFT g)
    else (kb2, g)
  else (kb, g).

Definition dir_eqb (a b : Direction) : bool :=
  match a, b with
  | STOP, STOP | LEFT, LEFT | RIGHT, RIGHT | UP, UP | DOWN, DOWN => true
  | _, _ => false
  end.

(** The last branch: W A S D and q. *)
Definition input_wasd (c : ascii) (g : Game) : Game :=
  if Ascii.eqb c "w"%char || Ascii.eqb c "W"%char then
    if negb (dir_eqb (dir g) DOWN) then set_dir UP g else g
  else if Ascii.eqb c "s"%char || Ascii.eqb c "S"%char then
    if negb (dir_eqb (dir g) UP) then set_dir DOWN g else g
  else if Ascii.eqb c "a"%char || Ascii.eqb c "A"%char then
    if negb (dir_eqb (dir g) RIGHT) then set_dir LEFT g else g
  else if Ascii.eqb c "d"%char || Ascii.eqb c "D"%char then
    if negb (dir_eqb (dir g) LEFT) then set_dir RIGHT g else g
  else if Ascii.eqb c "q"%char || Ascii.eqb c "Q"%char then
    set_gameOver true g
  else g.

Definition input (p : Platform) (kb : list ascii) (g : Game)
  : list ascii * Game :=
  if negb (kbhit_nonblocking kb) then (kb, g) else
  let (c, kb1) := getch_nonblocking kb in
  if is_char c 0 then (kb1, g) else
  if is_char c 27 then input_escape kb1 g else
  match p with
  | Win32 =>
      if is_char c 0 || is_char c 224 then input_win32 kb1 g
      else (kb1, input_wasd c g)
  | Posix => (kb1, input_wasd c g)
  end.

(** ** logic *)

(** The [switch (dir)] on the copy of the head. *)
Definition newHead (d : Direction) (head : Cell) : Cell :=
  let hx := fst head in
  let hy := snd head in
  match d with
  | LEFT => (Int32.wrap (hx - 1), hy)
  | RIGHT => (Int32.wrap (hx + 1), hy)
  | UP => (hx, Int32.wrap (hy - 1))
  | DOWN => (hx, Int32.wrap (hy + 1))
  | STOP => (hx, hy)
  end.

(** [hx < 0 || hx >= width || hy < 0 || hy >= height] *)
Definition hitsWall (g : Game) (c : Cell) : bool :=
  (fst c <? 0) || (fst c >=? width g) || (snd c <? 0) || (snd c >=? height g).

Definition logic (fuel : nat) (r : Rand) (g : Game) : outcome (Rand * Game) :=
  match snake g with
  | [] => Undefined
  | head :: _ =>
      let h := newHead (dir g) head in
      if hitsWall g h then Done (r, set_gameOver true g)
      else if onSnake h (snake g) then Done (r, set_gameOver true g)
      else
        let g1 := set_snake (h :: snake g) g in
        if (fst h =? fst (food g1)) && (snd h =? snd (food g1)) then
          placeFood fuel r (set_score (Int32.wrap (score g1 + 10)) g1)
        else
          Done (r, set_snake (removelast (snake g1)) g1)
  end.

(** ** The frame loop of main *)

Definition baseDelayMs : Z := 120.

(** [int delay = baseDelayMs - min(80, score / 5); if (delay < 40) delay = 40;] *)
Definition delay (sc : Z) : Z :=
  let d := Int32.wrap (baseDelayMs - Z.min 80 (Z.quot sc 5)) in
  if d <? 40 then 40 else d.

(** One iteration of [while (!gameOver)]: [input(); logic();]. *)
Definition frame (p : Platform) (fuel : nat) (kb : list ascii) (r : Rand)
  (g : Game) : outcome (list ascii * Rand * Game) :=
  let (kb', g1) := input p kb g in
  match logic fuel r g1 with
  | Done (r', g2) => Done (kb', r', g2)
  | Undefined => Undefined
  | OutOfFuel => OutOfFuel
  end.

(** The states the program passes through at the top of its loop: after
    [initGame] (at start-up and on "play again"), and after each frame begun
    with [gameOver] false. *)
Inductive reachable : Game -> Prop :=
| reach_init fuel seeded r g :
    initGame fuel seeded globals0 = Done (r, g) -> reachable g
| reach_again fuel seeded r g0 g :
    reachable g0 -> gameOver g0 = true ->
    initGame fuel seeded g0 = Done (r, g) -> reachable g
| reach_frame p fuel kb r kb' r' g g' :
    reachable g -> gameOver g = false ->
    frame p fuel kb r g = Done (kb', r', g') -> reachable g'.

(** ** Vocabulary of the statements *)

(** The cell that attempt number [k] (from 0) of the loop of [placeFood]
    draws: [(rand() % width, rand() % height)] from values [2k] and [2k+1]
    of the random sequence. *)
Definition sample (g : Game) (r : Rand) (k : nat) : Cell :=
  (Z.rem (r (k + k)%nat) (width g), Z.rem (r (S (k + k))) (height g)).

Definition inBounds (g : Game) (c : Cell) : Prop :=
  0 <= fst c < width g /\ 0 <= snd c < height g.

(** No free cell: every cell of the grid is on the snake. *)
Definition board_full (g : Game) : Prop :=
  forall c, inBounds g c -> onSnake c (snake g) = true.

Definition zrange (n : Z) : list Z := map Z.of_nat (seq 0 (Z.to_nat n)).

Definition board_fullb (g : Game) : bool :=
  forallb (fun x => forallb (fun y => onSnake (x, y) (snake g)) (zrange (height g)))
          (zrange (width g)).

(** The direct geometric opposite of a direction. *)
Definition opposite (d : Direction) : Direction :=
  match d with
  | STOP => STOP
  | LEFT => RIGHT
  | RIGHT => LEFT
  | UP => DOWN
  | DOWN => UP
  end.

(** The bytes a terminal sends for the left-arrow key. *)
Definition esc : ascii := ascii_of_nat 27.
Definition left_arrow : list ascii := [esc; "["%char; "D"%char].
(** The two bytes [_getch()] yields for the left-arrow key on Windows. *)
Definition left_arrow_win32 : list ascii := [ascii_of_nat 224; ascii_of_nat 75].

(** ** Concrete states *)

(** The state [initGame] builds when the first sample is the free cell (0,0). *)
Definition fresh_game : Game :=
  {| width := 40; height := 20; gameOver := false; score := 0; dir := RIGHT;
     food := (0, 0); snake := [(20, 10); (19, 10); (18, 10)] |}.

Definition zeros : Rand := fun _ => 0.

(** A path through every cell of a [w] by [h] grid, row after row, even
    rows left to right and odd rows right to left. *)
Definition row_cells (w y : Z) : list Cell :=
  map (fun x => (x, y)) (if Z.even y then zrange w else rev (zrange w)).

Definition serpentine (w h : Z) : list Cell := flat_map (row_cells w) (zrange h).

(** The 40 by 20 board one move before it is full: the snake lies on the
    path with its tail at (0,0) and its head at (1,19), the food is on the
    last free cell (0,19), and the snake moves left. *)
Definition last_bite : Game :=
  {| width := 40; height := 20; gameOver := false; score := 7960; dir := LEFT;
     food := (0, 19); snake := tl (rev (serpentine 40 20)) |}.

(** The state [logic] hands to [placeFood] from [last_bite]: the snake is
    on all 800 cells. *)
Definition full_board : Game :=
  set_score 7970 (set_snake ((0, 19) :: snake last_bite) last_bite).

(** The fresh snake with the direction still at its static initializer. *)
Definition stopped_game : Game := set_dir STOP fresh_game.

(** The fresh snake with the food on the cell right of its head. *)
Definition food_ahead : Game := set_food (21, 10) fresh_game.

(** A 5 by 5 grid, the head on the east border and moving right. *)
Definition at_east_wall : Game :=
  {| width := 5; height := 5; gameOver := false; score := 0; dir := RIGHT;
     food := (0, 0); snake := [(4, 2); (3, 2); (2, 2)] |}.

(** A snake coiled so that moving down puts the head on its own tail. *)
Definition coiled : Game :=
  {| width := 40; height := 20; gameOver := false; score := 10; dir := DOWN;
     food := (7, 7); snake := [(2, 2); (1, 2); (1, 3); (2, 3)] |}.

(** ** The delay as the specification words it *)

Module SpeedSpec.
Definition baseDelay : Z := 120.
Definition maxReduction : Z := 80.
Definition speedDivisor : Z := 5.
Definition minDelay : Z := 40.
Definition delay (sc : Z) : Z :=
  Z.max minDelay (baseDelay - Z.min maxReduction (sc / speedDivisor)).
End SpeedSpec.

(** ** draw

    What [draw] sends to [cout], byte by byte.  [clearScreen] writes the
    ANSI sequence on a POSIX system; on Windows it runs [system("cls")] and
    sends nothing to [cout] itself. *)

Module Text.
Import Stdlib.Strings.String.

Definition ansi_clear : list ascii :=
  ascii_of_nat 27 :: list_ascii_of_string "[2J"
  ++ ascii_of_nat 27 :: list_ascii_of_string "[1;1H".

Definition score_label : list ascii := list_ascii_of_string "Score: ".

Definition controls : list ascii :=
  list_ascii_of_string "Controls: W A S D or arrow keys. Press 'q' to quit.".

(** [cout << n] for an [int]: decimal digits, a minus sign when negative. *)
Definition decimal (n : Z) : list ascii :=
  list_ascii_of_string (DecimalString.NilEmpty.string_of_int (Z.to_int n)).

End Text.

Definition newline : ascii := ascii_of_nat 10.

Definition clearScreen (p : Platform) : list ascii :=
  match p with
  | Posix => Text.ansi_clear
  | Win32 => []
  end.

(** [for (int i = 0; i < width + 2; ++i) cout << '#';] *)
Definition border (g : Game) : list ascii :=
  repeat "#"%char (Z.to_nat (Int32.wrap (width g + 2))).

(** The scan [for (size_t i = 0; i < snake.size(); ++i)] of [draw], from
    index [i] on: the glyph of the first segment on (x,y), if any. *)
Fixpoint snakeGlyph (i : nat) (body : list Cell) (x y : Z) : option ascii :=
  match body with
  | [] => None
  | s :: rest =>
      if (fst s =? x) && (snd s =? y)
      then Some (if Nat.eqb i 0 then "O"%char else "o"%char)
      else snakeGlyph (S i) rest x y
  end.

(** The character [draw] prints for the cell (x,y). *)
Definition cellGlyph (g : Game) (x y : Z) : ascii :=
  if (x =? fst (food g)) && (y =? snd (food g)) then "@"%char
  else match snakeGlyph 0 (snake g) x y with
       | Some c => c
       | None => " "%char
       end.

(** One pass of [for (int y = 0; y < height; ++y)]. *)
Definition drawRow (g : Game) (y : Z) : list ascii :=
  "#"%char :: map (fun x => cellGlyph g x y) (zrange (width g))
  ++ ["#"%char; newline].

Definition draw (p : Platform) (g : Game) : list ascii :=
  clearScreen p
  ++ border g ++ [newline]
  ++ flat_map (drawRow g) (zrange (height g))
  ++ border g
  ++ newline :: Text.score_label ++ Text.decimal (score g) ++ [newline]
  ++ Text.controls ++ [newline].

(** ** The loop of main

    The first [n] iterations of [while (!gameOver)], or fewer when the game
    ends earlier.  [keys] gives, iteration by iteration, the bytes that
    arrive before [input] polls the keyboard; they queue up behind the
    bytes still pending.  The result carries the screens drawn and the
    delays slept, oldest first. *)
Record Run : Type := mkRun {
  pending : list ascii;
  randoms : Rand;
  game : Game;
  screens : list (list ascii);
  sleeps : list Z
}.

Fixpoint mainLoop (p : Platform) (n fuel : nat) (keys : list (list ascii))
  (s : Run) : outcome Run :=
  match n with
  | O => Done s
  | S n' =>
      if gameOver (game s) then Done s else
      let screen := draw p (game s) in
      match frame p fuel (pending s ++ hd [] keys) (randoms s) (game s) with
      | Done (kb', r', g') =>
          mainLoop p n' fuel (tl keys)
            {| pending := kb'; randoms := r'; game := g';
               screens := screens s ++ [screen];
               sleeps := sleeps s ++ [delay (score g')] |}
      | Undefined => Undefined
      | OutOfFuel => OutOfFuel
      end
  end.

(** ** More vocabulary *)

(** Two cells side by side, horizontally or vertically. *)
Definition adjacent (a b : Cell) : Prop :=
  Z.abs (fst a - fst b) + Z.abs (snd a - snd b) = 1.

(** Every cell of the list is adjacent to the next one. *)
Fixpoint contiguous (l : list Cell) : Prop :=
  match l with
  | a :: (b :: _) as t => adjacent a b /\ contiguous t
  | _ => True
  end.

(** All cells of the grid. *)
Definition allCells (g : Game) : list Cell :=
  list_prod (zrange (width g)) (zrange (height g)).

(** The number of moves the head can still make in its direction before
    the next one leaves the grid. *)
Definition roomAhead (g : Game) : Z :=
  match snake g with
  | [] => 0
  | head :: _ =>
      match dir g with
      | STOP => 0
      | LEFT => fst head
      | RIGHT => width g - 1 - fst head
      | UP => snd head
      | DOWN => height g - 1 - snd head
      end
  end.

(** No element is larger than the one before it. *)
Fixpoint nonincreasing (l : list Z) : Prop :=
  match l with
  | a :: (b :: _) as t => b <= a /\ nonincreasing t
  | _ => True
  end.

(** Where the character of the cell (x,y) stands in what [draw] writes:
    after the clear sequence, the top border and its newline, [y] rows of
    [width + 3] bytes, and the left border of its own row. *)
Definition cellOffset (p : Platform) (g : Game) (x y : Z) : nat :=
  (length (clearScreen p) + (Z.to_nat (width g) + 2) + 1
   + Z.to_nat y * (Z.to_nat (width g) + 3) + 1 + Z.to_nat x)%nat.

(** The start of the loop of [main] in state [g], nothing typed yet. *)
Definition startRun (r : Rand) (g : Game) : Run :=
  {| pending := []; randoms := r; game := g; screens := []; sleeps := [] |}.

(** What holds of the globals whenever the loop of [main] tests
    [gameOver]. *)
Record game_inv (g : Game) : Prop := mkInv {
  inv_width : width g = 40;
  inv_height : height g = 20;
  inv_dir : dir g <> STOP;
  inv_nodup : NoDup (snake g);
  inv_inside : Forall (inBounds g) (snake g);
  inv_length : (3 <= length (snake g))%nat;
  inv_contiguous : contiguous (snake g);
  inv_food : onSnake (food g) (snake g) = false;
  inv_score : score g = 10 * (Z.of_nat (length (snake g)) - 3)
}.

(** A random sequence whose first sample is the head (20,10) of the fresh
    snake and whose later samples are (0,0). *)
Definition head_then_zeros : Rand :=
  fun n => match n with O => 20 | S O => 10 | _ => 0 end.

(** The fresh game one frame after the key [w]: the snake has turned up. *)
Definition turned_up : Game :=
  set_snake [(20, 9); (20, 10); (19, 10)] (set_dir UP fresh_game).

(** * Properties *)

(** ** Machine integers *)

Lemma wrap_in_range (z : Z) : Int32.in_range (Int32.wrap z).
Proof.
  unfold Int32.in_range, Int32.wrap, Int32.min_int, Int32.max_int, Int32.modulus.
  pose proof (Z.mod_pos_bound (z - -2147483648) 4294967296 ltac:(lia)). lia.
Qed.

Lemma wrap_small (z : Z) : Int32.in_range z -> Int32.wrap z = z.
Proof.
  unfold Int32.in_range, Int32.wrap, Int32.min_int, Int32.max_int, Int32.modulus.
  intros Hz. rewrite Z.mod_small by lia. lia.
Qed.

(** Two wrapped values agree only when the originals agree modulo 2^32. *)
Lemma wrap_eq_mod (a b : Z) :
  Int32.wrap a = Int32.wrap b -> (a - b) mod Int32.modulus = 0.
Proof.
  unfold Int32.wrap. intros H.
  assert (E : (a - Int32.min_int) mod Int32.modulus
              = (b - Int32.min_int) mod Int32.modulus) by lia.
  replace (a - b) with ((a - Int32.min_int) - (b - Int32.min_int)) by lia.
  rewrite Zminus_mod, E, Z.sub_diag. reflexivity.
Qed.

(** ** The scan of the snake *)

Lemma onSnake_In (c : Cell) (body : list Cell) :
  onSnake c body = true <-> In c body.
Proof.
  unfold onSnake. rewrite existsb_exists. split.
  - intros [s [Hin Heq]]. apply andb_true_iff in Heq. destruct Heq as [Hx Hy].
    apply Z.eqb_eq in Hx, Hy. destruct s, c; simpl in *. subst. exact Hin.
  - intros Hin. exists c. split; [exact Hin|].
    now rewrite !Z.eqb_refl.
Qed.

Lemma onSnake_not_In (c : Cell) (body : list Cell) :
  onSnake c body = false <-> ~ In c body.
Proof.
  rewrite <- onSnake_In. destruct (onSnake c body); split; intros; congruence.
Qed.

Lemma zrange_In (n x : Z) : 0 <= x < n -> In x (zrange n).
Proof.
  intros Hx. unfold zrange. apply in_map_iff. exists (Z.to_nat x). split.
  - lia.
  - apply in_seq. lia.
Qed.

Lemma board_fullb_sound (g : Game) : board_fullb g = true -> board_full g.
Proof.
  unfold board_fullb, board_full, inBounds. intros H [x y] [Hx Hy]. simpl in *.
  rewrite forallb_forall in H. specialize (H x (zrange_In _ _ Hx)).
  rewrite forallb_forall in H. exact (H y (zrange_In _ _ Hy)).
Qed.

(** ** placeFood *)

Lemma sample_shift (g : Game) (r : Rand) (k : nat) :
  sample g (fun n => r (S (S n))) k = sample g r (S k).
Proof.
  unfold sample. now replace (S k + S k)%nat with (S (S (k + k))) by lia.
Qed.

Lemma sample_inBounds (g : Game) (r : Rand) (k : nat) :
  0 < width g -> 0 < height g -> rand_ok r -> inBounds g (sample g r k).
Proof.
  intros Hw Hh Hr. unfold inBounds, sample. simpl. split.
  - apply Z.rem_bound_pos; [apply Hr | exact Hw].
  - apply Z.rem_bound_pos; [apply Hr | exact Hh].
Qed.

(** One iteration of the loop, for a grid with non-zero sides. *)
Lemma placeFood_step (fuel : nat) (r : Rand) (g : Game) :
  width g <> 0 -> height g <> 0 ->
  placeFood (S fuel) r g =
    if onSnake (sample g r 0) (snake g)
    then placeFood fuel (fun n => r (S (S n))) g
    else Done (fun n => r (S (S n)), set_food (sample g r 0) g).
Proof.
  intros Hw Hh. simpl.
  apply Z.eqb_neq in Hw, Hh. rewrite Hw, Hh. reflexivity.
Qed.

(** While every sample lands on the snake the loop keeps running. *)
Lemma placeFood_rejecting (g : Game) (fuel : nat) :
  width g <> 0 -> height g <> 0 ->
  forall r,
    (forall k, (k < fuel)%nat -> onSnake (sample g r k) (snake g) = true) ->
    placeFood fuel r g = OutOfFuel.
Proof.
  intros Hw Hh. induction fuel as [|fuel IH]; intros r Hrej.
  - reflexivity.
  - rewrite placeFood_step by assumption.
    rewrite (Hrej O) by lia. apply IH.
    intros k Hk. rewrite sample_shift. apply Hrej. lia.
Qed.

(** The loop stops at the first sample that is off the snake. *)
Lemma placeFood_first_free (g : Game) (j : nat) :
  width g <> 0 -> height g <> 0 ->
  forall r,
    (forall i, (i < j)%nat -> onSnake (sample g r i) (snake g) = true) ->
    onSnake (sample g r j) (snake g) = false ->
    exists r', forall fuel, (j < fuel)%nat ->
      placeFood fuel r g = Done (r', set_food (sample g r j) g).
Proof.
  intros Hw Hh. induction j as [|j IH]; intros r Hrej Hfree.
  - exists (fun n => r (S (S n))). intros [|fuel] Hf; [lia|].
    rewrite placeFood_step by assumption. now rewrite Hfree.
  - destruct (IH (fun n => r (S (S n)))) as [r' Hr'].
    + intros i Hi. rewrite sample_shift. apply Hrej. lia.
    + now rewrite sample_shift.
    + exists r'. intros [|fuel] Hf; [lia|].
      rewrite placeFood_step by assumption.
      rewrite (Hrej O) by lia. rewrite <- sample_shift. apply Hr'. lia.
Qed.

(** Among the samples up to a free one there is a first free one. *)
Lemma first_free_sample (g : Game) (r : Rand) (k : nat) :
  onSnake (sample g r k) (snake g) = false ->
  exists j, (j <= k)%nat /\
    onSnake (sample g r j) (snake g) = false /\
    forall i, (i < j)%nat -> onSnake (sample g r i) (snake g) = true.
Proof.
  intros Hk.
  assert (H : forall n,
    (exists j, (j < n)%nat /\ onSnake (sample g r j) (snake g) = false /\
       forall i, (i < j)%nat -> onSnake (sample g r i) (snake g) = true)
    \/ (forall i, (i < n)%nat -> onSnake (sample g r i) (snake g) = true)).
  { induction n as [|n [[j [Hj Hrest]]|Hall]].
    - right. intros i Hi. lia.
    - left. exists j. split; [lia | exact Hrest].
    - destruct (onSnake (sample g r n) (snake g)) eqn:E.
      + right. intros i Hi. destruct (Nat.eq_dec i n) as [->|]; [exact E|].
        apply Hall. lia.
      + left. exists n. repeat split; [lia | exact E | exact Hall]. }
  destruct (H (S k)) as [[j [Hj Hrest]]|Hall].
  - exists j. split; [lia | exact Hrest].
  - rewrite Hall in Hk by lia. discriminate.
Qed.

(** Whatever [placeFood] returns differs from its argument in [food] only. *)
Lemma placeFood_frame (fuel : nat) :
  forall r g r' g', placeFood fuel r g = Done (r', g') ->
    exists c, g' = set_food c g /\ onSnake c (snake g) = false.
Proof.
  induction fuel as [|fuel IH]; intros r g r' g' H; simpl in H.
  - discriminate.
  - destruct (width g =? 0); [discriminate|].
    destruct (height g =? 0); [discriminate|].
    destruct (onSnake _ (snake g)) eqn:E.
    + eapply IH; eassumption.
    + injection H as _ <-. eexists. split; [reflexivity | exact E].
Qed.

Lemma zeros_ok : rand_ok zeros.
Proof. intros n. unfold zeros, Int32.max_int. lia. Qed.

(** A sequence that keeps drawing the head cell (20,10) of the fresh snake
    never places the food, although 797 cells are free. *)
Remark placeFood_unlucky_sequence (fuel : nat) :
  placeFood fuel (fun n => if Nat.even n then 20 else 10) fresh_game = OutOfFuel.
Proof.
  apply placeFood_rejecting; [discriminate | discriminate |].
  intros k _.
  assert (E : Nat.even (k + k) = true) by (apply Nat.even_spec; exists k; lia).
  assert (E' : Nat.even (S (k + k)) = false)
    by (now rewrite Nat.even_succ, <- Nat.negb_even, E).
  unfold sample. cbv beta. rewrite E, E'. reflexivity.
Qed.




(** ** logic *)

Lemma hitsWall_false (g : Game) (c : Cell) :
  hitsWall g c = false <-> inBounds g c.
Proof.
  unfold hitsWall, inBounds. rewrite !orb_false_iff.
  rewrite !Z.ltb_ge, !Z.geb_leb, !Z.leb_gt. lia.
Qed.

Lemma hitsWall_true (g : Game) (c : Cell) :
  hitsWall g c = true <->
  fst c < 0 \/ fst c >= width g \/ snd c < 0 \/ snd c >= height g.
Proof.
  unfold hitsWall. rewrite !orb_true_iff.
  rewrite !Z.ltb_lt, !Z.geb_leb, !Z.leb_le. lia.
Qed.

Lemma length_removelast_cons (A : Type) (a : A) (l : list A) :
  length (removelast (a :: l)) = length l.
Proof.
  revert a. induction l as [|b l IH]; intros a.
  - reflexivity.
  - change (removelast (a :: b :: l)) with (a :: removelast (b :: l)).
    cbn [length]. f_equal. apply IH.
Qed.

Lemma NoDup_removelast (A : Type) (l : list A) :
  NoDup l -> NoDup (removelast l).
Proof.
  intros H. destruct l as [|a l].
  - exact H.
  - assert (Hne : a :: l <> []) by discriminate.
    rewrite (app_removelast_last a Hne) in H.
    exact (NoDup_app_remove_r _ _ H).
Qed.

(** The three ways through [logic] for a snake with a head. *)
Lemma logic_wall (fuel : nat) (r : Rand) (g : Game) (head : Cell) :
  hd_error (snake g) = Some head ->
  hitsWall g (newHead (dir g) head) = true ->
  logic fuel r g = Done (r, set_gameOver true g).
Proof.
  unfold logic. destruct (snake g) as [|c body]; simpl; intros [= ->] Hw.
  now rewrite Hw.
Qed.

Lemma logic_self (fuel : nat) (r : Rand) (g : Game) (head : Cell) :
  hd_error (snake g) = Some head ->
  hitsWall g (newHead (dir g) head) = false ->
  onSnake (newHead (dir g) head) (snake g) = true ->
  logic fuel r g = Done (r, set_gameOver true g).
Proof.
  unfold logic. destruct (snake g) as [|c body]; simpl hd_error; intros [= ->] Hw Hs.
  now rewrite Hw, Hs.
Qed.

Lemma logic_move (fuel : nat) (r : Rand) (g : Game) (head : Cell) :
  hd_error (snake g) = Some head ->
  hitsWall g (newHead (dir g) head) = false ->
  onSnake (newHead (dir g) head) (snake g) = false ->
  logic fuel r g =
    let h := newHead (dir g) head in
    if (fst h =? fst (food g)) && (snd h =? snd (food g))
    then placeFood fuel r
           (set_score (Int32.wrap (score g + 10)) (set_snake (h :: snake g) g))
    else Done (r, set_snake (removelast (h :: snake g)) (set_snake (h :: snake g) g)).
Proof.
  unfold logic. destruct (snake g) as [|c body]; simpl hd_error; intros [= ->] Hw Hs.
  now rewrite Hw, Hs.
Qed.

(** From [last_bite] the move eats the food and [logic] calls [placeFood]
    with the snake on every cell. *)
Lemma logic_last_bite (fuel : nat) (r : Rand) :
  logic fuel r last_bite = placeFood fuel r full_board.
Proof.
  rewrite (logic_move fuel r last_bite (1, 19));
    [| vm_compute; reflexivity ..].
  assert (Hh : newHead (dir last_bite) (1, 19) = (0, 19)) by reflexivity.
  rewrite Hh. cbv zeta.
  assert (Hc : (fst (0, 19) =? fst (food last_bite))
               && (snd (0, 19) =? snd (food last_bite)) = true) by reflexivity.
  rewrite Hc. f_equal.
Qed.

(** C4, as the claim states it, fails one move before the 40 by 20 board is
    full: the new head (0,19) is in bounds, off the body and on the food, yet
    the tick never returns, so there is no grown body, no new score and no
    new food. *)
Lemma logic_last_bite_never_returns :
  gameOver last_bite = false /\
  hd_error (snake last_bite) = Some (1, 19) /\
  newHead (dir last_bite) (1, 19) = food last_bite /\
  hitsWall last_bite (food last_bite) = false /\
  onSnake (food last_bite) (snake last_bite) = false /\
  ~ (exists fuel r, rand_ok r /\ logic fuel r last_bite <> OutOfFuel).
Proof.
  do 5 (split; [vm_compute; reflexivity|]).
  intros [fuel [r [Hr Hne]]]. apply Hne. rewrite logic_last_bite.
  apply placeFood_rejecting; [discriminate | discriminate |].
  intros k _. apply board_fullb_sound; [vm_compute; reflexivity|].
  apply sample_inBounds; [reflexivity | reflexivity | exact Hr].
Qed.

(** C4 (amended).  Take a running state whose new head [h] is in bounds,
    off the body and on the food, with [score + 10] representable and values
    of [rand()] in range.  If the grown body [h :: snake] fills the grid,
    the tick never returns: [logic] is still running after any number of
    iterations of [placeFood].  If some sample, number [k], of the random
    sequence is off the grown body, the tick returns (at the first such
    sample [j <= k]) with the body grown by [h] at the front, so one cell
    longer, the score 10 higher, and the food on that sample, a cell inside
    the grid and off every cell of the new body; the game is still running. *)
Theorem logic_eats_food (r : Rand) (g : Game) (head h : Cell) :
  gameOver g = false ->
  hd_error (snake g) = Some head ->
  newHead (dir g) head = h ->
  inBounds g h ->
  onSnake h (snake g) = false ->
  h = food g ->
  Int32.in_range (score g + 10) ->
  rand_ok r ->
  (board_full (set_snake (h :: snake g) g) ->
   forall fuel, logic fuel r g = OutOfFuel) /\
  (forall k, onSnake (sample g r k) (h :: snake g) = false ->
     exists j r' g', (j <= k)%nat /\
       (forall fuel, (j < fuel)%nat -> logic fuel r g = Done (r', g')) /\
       snake g' = h :: snake g /\
       length (snake g') = S (length (snake g)) /\
       score g' = score g + 10 /\
       food g' = sample g r j /\
       inBounds g' (food g') /\
       onSnake (food g') (snake g') = false /\
       gameOver g' = false).
Proof.
  intros Hrun Hhd Hh Hin Hoff Hfood Hsc Hr.
  set (g1 := set_score (Int32.wrap (score g + 10)) (set_snake (h :: snake g) g)).
  assert (Hwh : 0 < width g /\ 0 < height g) by (unfold inBounds in Hin; lia).
  destruct Hwh as [Hw Hh0].
  assert (Hlogic : forall fuel, logic fuel r g = placeFood fuel r g1).
  { intros fuel. rewrite (logic_move fuel r g head Hhd).
    - rewrite Hh. cbv zeta. rewrite <- Hfood, !Z.eqb_refl. reflexivity.
    - rewrite Hh. now apply hitsWall_false.
    - now rewrite Hh. }
  split.
  - intros Hfull fuel. rewrite Hlogic.
    apply placeFood_rejecting; [simpl; lia | simpl; lia |].
    intros k _. apply Hfull. exact (sample_inBounds g1 r k Hw Hh0 Hr).
  - intros k Hk.
    destruct (first_free_sample g1 r k Hk) as [j [Hjk [Hfree Hrej]]].
    destruct (placeFood_first_free g1 j) with (r := r) as [r' Hr'];
      try assumption; try (simpl; lia).
    exists j, r', (set_food (sample g1 r j) g1).
    split; [exact Hjk|]. split.
    + intros fuel Hf. rewrite Hlogic. apply Hr'. exact Hf.
    + split; [reflexivity|]. split; [reflexivity|].
      split; [exact (wrap_small _ Hsc)|]. split; [reflexivity|].
      split; [exact (sample_inBounds g1 r j Hw Hh0 Hr)|].
      split; [exact Hfree | exact Hrun].
Qed.

(** The witness takes both cases: the last free cell of the 40 by 20
    board, and the fresh snake with the food right of its head. *)
Lemma logic_eats_food_witness :
  (forall fuel, logic fuel zeros last_bite = OutOfFuel) /\
  (exists j r' g', (j <= 0)%nat /\
     (forall fuel, (j < fuel)%nat -> logic fuel zeros food_ahead = Done (r', g')) /\
     snake g' = (21, 10) :: snake food_ahead /\
     length (snake g') = S (length (snake food_ahead)) /\
     score g' = score food_ahead + 10 /\
     food g' = sample food_ahead zeros j /\
     inBounds g' (food g') /\
     onSnake (food g') (snake g') = false /\
     gameOver g' = false).
Proof.
  split.
  - apply (proj1 (logic_eats_food zeros last_bite (1, 19) (0, 19)
                    eq_refl
                    ltac:(vm_compute; reflexivity)
                    eq_refl
                    ltac:(unfold inBounds; cbn [fst snd width height last_bite]; lia)
                    ltac:(vm_compute; reflexivity)
                    eq_refl
                    ltac:(unfold Int32.in_range, Int32.min_int, Int32.max_int;
                          cbn [score last_bite]; lia)
                    zeros_ok)).
    apply board_fullb_sound. vm_compute. reflexivity.
  - apply (proj2 (logic_eats_food zeros food_ahead (20, 10) (21, 10)
                    eq_refl eq_refl eq_refl
                    ltac:(unfold inBounds; simpl; lia)
                    eq_refl eq_refl
                    ltac:(unfold Int32.in_range, Int32.min_int, Int32.max_int;
                          simpl; lia)
                    zeros_ok) O).
    reflexivity.
Defined.

(** C7.  In a running state whose new head is in bounds, off the body and
    not on the food, one tick returns with the body moved (new head in
    front, last cell dropped): its length and the score are unchanged. *)
Theorem logic_plain_move (fuel : nat) (r : Rand) (g : Game) (head h : Cell) :
  gameOver g = false ->
  hd_error (snake g) = Some head ->
  newHead (dir g) head = h ->
  inBounds g h ->
  onSnake h (snake g) = false ->
  h <> food g ->
  exists g', logic fuel r g = Done (r, g') /\
    length (snake g') = length (snake g) /\
    score g' = score g /\
    snake g' = removelast (h :: snake g) /\
    food g' = food g /\
    gameOver g' = false.
Proof.
  intros Hrun Hhd Hh Hin Hoff Hfood.
  exists (set_snake (removelast (h :: snake g)) (set_snake (h :: snake g) g)).
  split.
  - rewrite (logic_move fuel r g head Hhd).
    + rewrite Hh. cbv zeta.
      destruct ((fst h =? fst (food g)) && (snd h =? snd (food g))) eqn:E.
      * exfalso. apply Hfood. apply andb_true_iff in E. destruct E as [Ex Ey].
        apply Z.eqb_eq in Ex, Ey. destruct h, (food g). simpl in *. congruence.
      * reflexivity.
    + rewrite Hh. now apply hitsWall_false.
    + now rewrite Hh.
  - cbn [snake score food gameOver set_snake].
    repeat split; try reflexivity; try assumption.
    apply length_removelast_cons.
Qed.

Lemma logic_plain_move_witness :
  exists g', logic 0 zeros fresh_game = Done (zeros, g') /\
    length (snake g') = length (snake fresh_game) /\
    score g' = score fresh_game /\
    snake g' = removelast ((21, 10) :: snake fresh_game) /\
    food g' = food fresh_game /\
    gameOver g' = false.
Proof.
  apply (logic_plain_move 0 zeros fresh_game (20, 10) (21, 10)).
  - reflexivity.
  - reflexivity.
  - reflexivity.
  - unfold inBounds. simpl. lia.
  - reflexivity.
  - discriminate.
Defined.

(** C6.  In a running state whose new head is outside the grid, one tick
    returns with [gameOver] set and the body, the food (and the score and
    the direction) unchanged.  Nothing is assumed about the new head and the
    body: the wall test comes first in [logic] and decides alone. *)
Theorem logic_wall_collision (fuel : nat) (r : Rand) (g : Game) (head h : Cell) :
  gameOver g = false ->
  hd_error (snake g) = Some head ->
  newHead (dir g) head = h ->
  (fst h < 0 \/ fst h >= width g \/ snd h < 0 \/ snd h >= height g) ->
  exists g', logic fuel r g = Done (r, g') /\
    gameOver g' = true /\
    snake g' = snake g /\
    food g' = food g /\
    score g' = score g /\
    dir g' = dir g.
Proof.
  intros _ Hhd Hh Hout. exists (set_gameOver true g). split.
  - apply (logic_wall fuel r g head Hhd). rewrite Hh. now apply hitsWall_true.
  - repeat split.
Qed.

Lemma logic_wall_collision_witness :
  exists g', logic 0 zeros at_east_wall = Done (zeros, g') /\
    gameOver g' = true /\
    snake g' = snake at_east_wall /\
    food g' = food at_east_wall /\
    score g' = score at_east_wall /\
    dir g' = dir at_east_wall.
Proof.
  apply (logic_wall_collision 0 zeros at_east_wall (4, 2) (5, 2)).
  - reflexivity.
  - reflexivity.
  - reflexivity.
  - simpl. lia.
Defined.

(** C10.  In a running state whose new head is inside the grid and on a
    cell of the current body, the last cell included, one tick returns with
    [gameOver] set and the body, the food and the score unchanged. *)
Theorem logic_self_collision (fuel : nat) (r : Rand) (g : Game) (head h : Cell) :
  gameOver g = false ->
  hd_error (snake g) = Some head ->
  newHead (dir g) head = h ->
  inBounds g h ->
  In h (snake g) ->
  exists g', logic fuel r g = Done (r, g') /\
    gameOver g' = true /\
    snake g' = snake g /\
    food g' = food g /\
    score g' = score g.
Proof.
  intros _ Hhd Hh Hin Hon. exists (set_gameOver true g). split.
  - apply (logic_self fuel r g head Hhd); rewrite Hh.
    + now apply hitsWall_false.
    + now apply onSnake_In.
  - repeat split.
Qed.

(** The witness moves the head onto the last cell of the body. *)
Lemma logic_self_collision_witness :
  last (snake coiled) (0, 0) = (2, 3) /\
  exists g', logic 0 zeros coiled = Done (zeros, g') /\
    gameOver g' = true /\
    snake g' = snake coiled /\
    food g' = food coiled /\
    score g' = score coiled.
Proof.
  split; [reflexivity|].
  apply (logic_self_collision 0 zeros coiled (2, 2) (2, 3)).
  - reflexivity.
  - reflexivity.
  - reflexivity.
  - unfold inBounds. simpl. lia.
  - simpl. auto.
Defined.

(** ** input *)

Lemma input_no_key (p : Platform) (g : Game) : input p [] g = ([], g).
Proof. reflexivity. Qed.

(** [input] never touches the body, the food, the score or the grid. *)
Lemma input_frame (p : Platform) (kb : list ascii) (g : Game) :
  let g' := snd (input p kb g) in
  snake g' = snake g /\ food g' = food g /\ score g' = score g /\
  width g' = width g /\ height g' = height g.
Proof.
  assert (Hw : forall c, let g' := input_wasd c g in
            snake g' = snake g /\ food g' = food g /\ score g' = score g /\
            width g' = width g /\ height g' = height g).
  { intros c. unfold input_wasd.
    repeat match goal with
           | |- context [if ?b then _ else _] => destruct b
           end; repeat split. }
  unfold input. destruct kb as [|c kb]; [repeat split|].
  cbn [kbhit_nonblocking negb getch_nonblocking].
  destruct (is_char c 0); [repeat split|].
  destruct (is_char c 27).
  - unfold input_escape.
    destruct kb as [|c2 [|c3 kb]]; cbn [kbhit_nonblocking getch_nonblocking];
      [repeat split | repeat split |].
    repeat match goal with
           | |- context [if ?b then _ else _] => destruct b
           end; repeat split.
  - destruct p; [apply Hw|].
    destruct (false || is_char c 224); [|apply Hw].
    unfold input_win32.
    destruct kb as [|c2 kb]; cbn [kbhit_nonblocking getch_nonblocking];
      [repeat split|].
    repeat match goal with
           | |- context [if ?b then _ else _] => destruct b
           end; repeat split.
Qed.

(** ** The direction STOP *)

(** C3, as the claim states it, fails on the fresh snake with the direction
    at STOP and no key pending: the frame ends the game. *)
Lemma frame_stopped_game_over :
  gameOver stopped_game = false /\
  dir stopped_game = STOP /\
  exists out, frame Posix 0 [] zeros stopped_game = Done out /\
              gameOver (snd out) = true.
Proof.
  split; [reflexivity|]. split; [reflexivity|].
  exists ([], zeros, set_gameOver true stopped_game).
  split; reflexivity.
Qed.

(** C3 (amended).  With the direction at STOP and no key pending, a frame of
    a running state leaves the direction at STOP and computes the head
    itself as new head (offset (0,0)); as that cell is on the body (or
    outside the grid), the frame returns with [gameOver] set, and with the
    body, the food and the score unchanged. *)
Theorem frame_stop_ends_game (p : Platform) (fuel : nat) (r : Rand) (g : Game)
  (head : Cell) :
  gameOver g = false ->
  dir g = STOP ->
  hd_error (snake g) = Some head ->
  newHead (dir g) head = head /\
  exists g', frame p fuel [] r g = Done ([], r, g') /\
    gameOver g' = true /\
    snake g' = snake g /\
    food g' = food g /\
    score g' = score g /\
    dir g' = STOP.
Proof.
  intros _ Hdir Hhd.
  assert (Hnew : newHead (dir g) head = head).
  { rewrite Hdir. destruct head. reflexivity. }
  split; [exact Hnew|].
  exists (set_gameOver true g). split.
  - unfold frame. rewrite input_no_key.
    destruct (hitsWall g (newHead (dir g) head)) eqn:Ew.
    + now rewrite (logic_wall fuel r g head Hhd Ew).
    + rewrite (logic_self fuel r g head Hhd Ew); [reflexivity|].
      rewrite Hnew. apply onSnake_In.
      destruct (snake g) as [|c body]; simpl in Hhd; [discriminate|].
      injection Hhd as ->. now left.
  - repeat split. exact Hdir.
Qed.

Lemma frame_stop_ends_game_witness :
  newHead (dir stopped_game) (20, 10) = (20, 10) /\
  exists g', frame Posix 0 [] zeros stopped_game = Done ([], zeros, g') /\
    gameOver g' = true /\
    snake g' = snake stopped_game /\
    food g' = food stopped_game /\
    score g' = score stopped_game /\
    dir g' = STOP.
Proof.
  apply (frame_stop_ends_game Posix 0 zeros stopped_game (20, 10));
    reflexivity.
Defined.

(** The letter keys never turn the snake around. *)
Lemma input_wasd_never_reverses (c : ascii) (g : Game) :
  dir g <> STOP -> dir (input_wasd c g) <> opposite (dir g).
Proof.
  intros Hstop. unfold input_wasd.
  repeat match goal with
         | |- context [if ?b then _ else _] => destruct b eqn:?
         end;
    destruct (dir g) eqn:Ed; simpl in *; rewrite ?Ed; congruence.
Qed.

(** C2 at its failing input: the snake heads right and the left-arrow key
    arrives; [input] sets the direction to LEFT, on either platform, whereas
    the letter key for the same request leaves it at RIGHT. *)
Theorem input_arrow_reverses :
  dir fresh_game = RIGHT /\
  input Posix left_arrow fresh_game = ([], set_dir LEFT fresh_game) /\
  input Win32 left_arrow_win32 fresh_game = ([], set_dir LEFT fresh_game) /\
  input Posix ["a"%char] fresh_game = ([], fresh_game).
Proof. repeat split. Qed.

(** ** initGame *)

Lemma initGame_fields (fuel : nat) (seeded r : Rand) (g0 g : Game) :
  initGame fuel seeded g0 = Done (r, g) ->
  snake g = startBody g0 /\ dir g = RIGHT /\ score g = 0 /\
  gameOver g = false /\ width g = width g0 /\ height g = height g0 /\
  onSnake (food g) (snake g) = false.
Proof.
  unfold initGame. intros H.
  destruct (placeFood fuel seeded _) as [[r1 g1]| |] eqn:E; try discriminate.
  injection H as <- <-.
  destruct (placeFood_frame _ _ _ _ _ E) as [c [-> Hc]].
  repeat split. exact Hc.
Qed.

Lemma NoDup_row3 (a b c y : Z) :
  a <> b -> a <> c -> b <> c -> NoDup [(a, y); (b, y); (c, y)].
Proof.
  intros Hab Hac Hbc. constructor.
  - intros [E|[E|[]]]; injection E as E; congruence.
  - constructor.
    + intros [E|[]]. injection E as E. congruence.
    + constructor; [intros [] | constructor].
Qed.

Lemma startBody_NoDup (g : Game) : NoDup (startBody g).
Proof.
  unfold startBody. generalize (Z.quot (width g) 2). intros sx.
  assert (H1 : sx <> Int32.wrap (sx - 1)).
  { intros E. pose proof (wrap_in_range (sx - 1)) as Hr. rewrite <- E in Hr.
    rewrite <- (wrap_small sx Hr) in E at 1. apply wrap_eq_mod in E.
    replace (sx - (sx - 1)) with 1 in E by lia. discriminate E. }
  assert (H2 : sx <> Int32.wrap (sx - 2)).
  { intros E. pose proof (wrap_in_range (sx - 2)) as Hr. rewrite <- E in Hr.
    rewrite <- (wrap_small sx Hr) in E at 1. apply wrap_eq_mod in E.
    replace (sx - (sx - 2)) with 2 in E by lia. discriminate E. }
  assert (H3 : Int32.wrap (sx - 1) <> Int32.wrap (sx - 2)).
  { intros E. apply wrap_eq_mod in E.
    replace (sx - 1 - (sx - 2)) with 1 in E by lia. discriminate E. }
  apply NoDup_row3; assumption.
Qed.

(** C9, as the claim states it, fails at program start: [initGame] run on
    the initial globals returns with the direction at RIGHT, not STOP. *)
Lemma initGame_direction_not_stop :
  dir globals0 = STOP /\
  exists r g, initGame 1 zeros globals0 = Done (r, g) /\ dir g <> STOP.
Proof.
  split; [reflexivity|].
  exists zeros, fresh_game. split; [reflexivity | discriminate].
Qed.

(** C9 (amended).  STOP is only what the static initializer gives [dir].
    Every return of [initGame] leaves the direction at RIGHT, before any key
    is read; and [initGame] does return, on a grid with non-zero sides, as
    soon as some sample of the random sequence is off the start body. *)
Theorem initGame_direction (seeded : Rand) (g0 : Game) (k : nat) :
  width g0 <> 0 -> height g0 <> 0 ->
  onSnake (sample g0 seeded k) (startBody g0) = false ->
  (exists j r g, (j <= k)%nat /\
     forall fuel, (j < fuel)%nat -> initGame fuel seeded g0 = Done (r, g)) /\
  (forall fuel r g, initGame fuel seeded g0 = Done (r, g) ->
     dir g = RIGHT /\ gameOver g = false).
Proof.
  intros Hw Hh Hk. split.
  - set (g1 := set_score 0 (set_dir RIGHT (set_snake (startBody g0) g0))).
    destruct (first_free_sample g1 seeded k Hk) as [j [Hjk [Hfree Hrej]]].
    destruct (placeFood_first_free g1 j Hw Hh seeded Hrej Hfree) as [r' Hr'].
    exists j, r', (set_gameOver false (set_food (sample g1 seeded j) g1)).
    split; [exact Hjk|]. intros fuel Hf. unfold initGame.
    fold g1. now rewrite (Hr' fuel Hf).
  - intros fuel r g H. apply initGame_fields in H. tauto.
Qed.

Lemma initGame_direction_witness :
  (exists j r g, (j <= 0)%nat /\
     forall fuel, (j < fuel)%nat -> initGame fuel zeros globals0 = Done (r, g)) /\
  (forall fuel r g, initGame fuel zeros globals0 = Done (r, g) ->
     dir g = RIGHT /\ gameOver g = false).
Proof.
  apply (initGame_direction zeros globals0 O).
  - discriminate.
  - discriminate.
  - reflexivity.
Defined.

(** ** The body stays free of repeated cells *)

Lemma logic_NoDup (fuel : nat) (r r' : Rand) (g g' : Game) :
  NoDup (snake g) ->
  logic fuel r g = Done (r', g') ->
  NoDup (snake g') /\ (length (snake g) <= length (snake g'))%nat.
Proof.
  intros Hnd H.
  destruct (snake g) as [|head body] eqn:Es.
  { unfold logic in H. rewrite Es in H. discriminate. }
  assert (Hhd : hd_error (snake g) = Some head) by now rewrite Es.
  rewrite <- Es in *.
  destruct (hitsWall g (newHead (dir g) head)) eqn:Ew.
  { rewrite (logic_wall fuel r g head Hhd Ew) in H. injection H as _ <-.
    split; [exact Hnd | apply Nat.le_refl]. }
  destruct (onSnake (newHead (dir g) head) (snake g)) eqn:Eo.
  { rewrite (logic_self fuel r g head Hhd Ew Eo) in H. injection H as _ <-.
    split; [exact Hnd | apply Nat.le_refl]. }
  rewrite (logic_move fuel r g head Hhd Ew Eo) in H. cbv zeta in H.
  assert (Hgrown : NoDup (newHead (dir g) head :: snake g)).
  { constructor; [now apply onSnake_not_In | exact Hnd]. }
  destruct (_ && _) in H.
  - destruct (placeFood_frame _ _ _ _ _ H) as [c [-> _]].
    split; [exact Hgrown | simpl; lia].
  - assert (Hg' : g' = set_snake (removelast (newHead (dir g) head :: snake g))
                         (set_snake (newHead (dir g) head :: snake g) g))
      by congruence.
    rewrite Hg'. cbn [snake set_snake]. split.
    + apply NoDup_removelast. exact Hgrown.
    + rewrite length_removelast_cons. apply Nat.le_refl.
Qed.

Lemma frame_NoDup (p : Platform) (fuel : nat) (kb kb' : list ascii)
  (r r' : Rand) (g g' : Game) :
  NoDup (snake g) ->
  frame p fuel kb r g = Done (kb', r', g') ->
  NoDup (snake g') /\ (length (snake g) <= length (snake g'))%nat.
Proof.
  unfold frame. intros Hnd H.
  pose proof (input_frame p kb g) as Hin. cbv zeta in Hin.
  destruct (input p kb g) as [kb1 g1]. simpl in Hin.
  destruct Hin as [Hs _]. rewrite <- Hs in *.
  destruct (logic fuel r g1) as [[r1 g2]| |] eqn:E; try discriminate.
  injection H as _ _ <-. exact (logic_NoDup _ _ _ _ _ Hnd E).
Qed.

Lemma reachable_body (g : Game) :
  reachable g -> NoDup (snake g) /\ (3 <= length (snake g))%nat.
Proof.
  induction 1 as [fuel seeded r g H | fuel seeded r g0 g _ _ _ H
                 | p fuel kb r kb' r' g g' _ [IHd IHl] _ H].
  - apply initGame_fields in H. destruct H as [-> _].
    split; [apply startBody_NoDup | apply Nat.le_refl].
  - apply initGame_fields in H. destruct H as [-> _].
    split; [apply startBody_NoDup | apply Nat.le_refl].
  - destruct (frame_NoDup _ _ _ _ _ _ _ _ IHd H) as [Hd Hl].
    split; [exact Hd | lia].
Qed.

(** C5.  [initGame] creates a body of three cells, no two equal; every
    state the program reaches from its start by frames (and restarts) has a
    body without repeated cells, of length at least 3; and every frame that
    returns, whether or not the game goes on, maps a body without repeated
    cells to one without repeated cells. *)
Theorem snake_cells_distinct :
  (forall fuel seeded r g0 g,
     initGame fuel seeded g0 = Done (r, g) ->
     length (snake g) = 3%nat /\ NoDup (snake g)) /\
  (forall g, reachable g ->
     NoDup (snake g) /\ (3 <= length (snake g))%nat) /\
  (forall p fuel kb r kb' r' g g',
     NoDup (snake g) ->
     frame p fuel kb r g = Done (kb', r', g') ->
     NoDup (snake g')).
Proof.
  split; [|split].
  - intros fuel seeded r g0 g H. apply initGame_fields in H.
    destruct H as [-> _]. split; [reflexivity | apply startBody_NoDup].
  - exact reachable_body.
  - intros p fuel kb r kb' r' g g' Hnd H.
    exact (proj1 (frame_NoDup _ _ _ _ _ _ _ _ Hnd H)).
Qed.

(** The fresh game, and the state one frame later with the key [w] typed. *)
Lemma snake_cells_distinct_witness :
  (length (snake fresh_game) = 3%nat /\ NoDup (snake fresh_game)) /\
  (NoDup [(20, 9); (20, 10); (19, 10)] /\ (3 <= 3)%nat).
Proof.
  assert (Hinit : initGame 1 zeros globals0 = Done (zeros, fresh_game))
    by reflexivity.
  split.
  - exact (proj1 snake_cells_distinct 1%nat zeros zeros globals0 fresh_game Hinit).
  - apply (proj1 (proj2 snake_cells_distinct)
             (set_snake [(20, 9); (20, 10); (19, 10)] (set_dir UP fresh_game))).
    apply (reach_frame Posix 0 ["w"%char] zeros [] zeros fresh_game).
    + exact (reach_init 1 zeros zeros fresh_game Hinit).
    + reflexivity.
    + reflexivity.
Defined.

(** ** The delay between frames *)

(** C8.  For every score from 0 up, the delay the loop of [main] computes
    is [max(40, 120 - min(80, score / 5))] in integer arithmetic; it depends
    on the score alone. *)
Theorem delay_formula (sc : Z) : 0 <= sc -> delay sc = SpeedSpec.delay sc.
Proof.
  intros Hsc. unfold delay, SpeedSpec.delay, baseDelayMs, SpeedSpec.minDelay,
    SpeedSpec.baseDelay, SpeedSpec.maxReduction, SpeedSpec.speedDivisor.
  rewrite Z.quot_div_nonneg by lia.
  assert (Hq : 0 <= sc / 5) by (apply Z.div_pos; lia).
  rewrite wrap_small.
  - destruct (Z.ltb_spec (120 - Z.min 80 (sc / 5)) 40); lia.
  - unfold Int32.in_range, Int32.min_int, Int32.max_int. lia.
Qed.

Lemma delay_formula_witness : delay 250 = SpeedSpec.delay 250.
Proof. apply (delay_formula 250). lia. Defined.

(** * Further properties of the program *)

(** ** What a call of input can do to the globals *)

Lemma input_wasd_cases (c : ascii) (g : Game) :
  input_wasd c g = g \/
  (exists d, d <> STOP /\ input_wasd c g = set_dir d g) \/
  input_wasd c g = set_gameOver true g.
Proof.
  unfold input_wasd.
  repeat match goal with
         | |- context [if ?b then _ else _] => destruct b
         end;
    try (left; reflexivity); try (right; right; reflexivity);
    right; left; eexists; (split; [|reflexivity]); discriminate.
Qed.

Lemma input_cases (p : Platform) (kb : list ascii) (g : Game) :
  snd (input p kb g) = g \/
  (exists d, d <> STOP /\ snd (input p kb g) = set_dir d g) \/
  snd (input p kb g) = set_gameOver true g.
Proof.
  unfold input. destruct kb as [|c kb]; [left; reflexivity|].
  cbn [kbhit_nonblocking negb getch_nonblocking].
  destruct (is_char c 0); [left; reflexivity|].
  destruct (is_char c 27).
  - unfold input_escape.
    destruct kb as [|c2 [|c3 kb]]; cbn [kbhit_nonblocking getch_nonblocking];
      [left; reflexivity | left; reflexivity |].
    repeat match goal with
           | |- context [if ?b then _ else _] => destruct b
           end;
      try (left; reflexivity);
      right; left; eexists; (split; [|reflexivity]); discriminate.
  - destruct p; [apply input_wasd_cases|].
    destruct (false || is_char c 224); [|apply input_wasd_cases].
    unfold input_win32.
    destruct kb as [|c2 kb]; cbn [kbhit_nonblocking getch_nonblocking];
      [left; reflexivity|].
    repeat match goal with
           | |- context [if ?b then _ else _] => destruct b
           end;
      try (left; reflexivity);
      right; left; eexists; (split; [|reflexivity]); discriminate.
Qed.

(** ** What a call of logic can do to the globals *)

Lemma logic_cases (fuel : nat) (r r' : Rand) (g g' : Game) :
  logic fuel r g = Done (r', g') ->
  exists head, hd_error (snake g) = Some head /\
    let h := newHead (dir g) head in
    (g' = set_gameOver true g /\ (~ inBounds g h \/ In h (snake g))) \/
    (inBounds g h /\ ~ In h (snake g) /\ h = food g /\
     exists c, ~ In c (h :: snake g) /\
       g' = set_food c (set_score (Int32.wrap (score g + 10))
                          (set_snake (h :: snake g) g))) \/
    (inBounds g h /\ ~ In h (snake g) /\ h <> food g /\
     g' = set_snake (removelast (h :: snake g)) g).
Proof.
  intros H.
  destruct (snake g) as [|head body] eqn:Es.
  { unfold logic in H. rewrite Es in H. discriminate. }
  exists head. split; [reflexivity|]. rewrite <- Es.
  assert (Hhd : hd_error (snake g) = Some head) by now rewrite Es.
  cbv zeta.
  destruct (hitsWall g (newHead (dir g) head)) eqn:Ew.
  { rewrite (logic_wall fuel r g head Hhd Ew) in H. left. split; [congruence|].
    left. rewrite <- hitsWall_false. congruence. }
  destruct (onSnake (newHead (dir g) head) (snake g)) eqn:Eo.
  { rewrite (logic_self fuel r g head Hhd Ew Eo) in H. left.
    split; [congruence|]. right. now apply onSnake_In. }
  apply hitsWall_false in Ew. pose proof Eo as Hoff. apply onSnake_not_In in Hoff.
  rewrite (logic_move fuel r g head Hhd) in H;
    [| now apply hitsWall_false | exact Eo].
  cbv zeta in H. right.
  destruct ((fst (newHead (dir g) head) =? fst (food g))
            && (snd (newHead (dir g) head) =? snd (food g))) eqn:Ef.
  - left. split; [exact Ew|]. split; [exact Hoff|]. split.
    + apply andb_true_iff in Ef. destruct Ef as [Ex Ey].
      apply Z.eqb_eq in Ex, Ey.
      destruct (newHead (dir g) head), (food g). simpl in *. congruence.
    + destruct (placeFood_frame _ _ _ _ _ H) as [c [-> Hc]].
      exists c. split; [|reflexivity]. now apply onSnake_not_In.
  - right. split; [exact Ew|]. split; [exact Hoff|]. split.
    + intros E. rewrite <- E, !Z.eqb_refl in Ef. discriminate.
    + injection H as _ H. rewrite <- H. reflexivity.
Qed.

(** ** Lists without their last element *)

Lemma In_removelast (A : Type) (x : A) (l : list A) :
  In x (removelast l) -> In x l.
Proof.
  induction l as [|a [|b l] IH]; simpl; intros H.
  - exact H.
  - contradiction.
  - destruct H as [H|H]; [now left | right; now apply IH].
Qed.

Lemma Forall_removelast (A : Type) (P : A -> Prop) (l : list A) :
  Forall P l -> Forall P (removelast l).
Proof.
  intros H. apply Forall_forall. intros x Hx.
  rewrite Forall_forall in H. apply H. now apply In_removelast.
Qed.

Lemma contiguous_removelast (l : list Cell) :
  contiguous l -> contiguous (removelast l).
Proof.
  induction l as [|a [|b [|c l]] IH]; intros H; try exact I.
  change (removelast (a :: b :: c :: l))
    with (a :: b :: removelast (c :: l)).
  destruct H as [Hab Hrest]. split; [exact Hab|].
  exact (IH Hrest).
Qed.

(** ** Counting the cells of the grid *)

Lemma allCells_complete (g : Game) (c : Cell) :
  inBounds g c -> In c (allCells g).
Proof.
  destruct c as [x y]. intros [Hx Hy]. simpl in *.
  apply in_prod; now apply zrange_In.
Qed.

Lemma length_allCells (g : Game) :
  length (allCells g) = (Z.to_nat (width g) * Z.to_nat (height g))%nat.
Proof.
  unfold allCells, zrange, Cell.
  now rewrite length_prod, !length_map, !length_seq.
Qed.

(** A body without repeated cells that lies inside the grid has at most as
    many cells as the grid. *)
Lemma body_fits (g : Game) (body : list Cell) :
  NoDup body -> Forall (inBounds g) body ->
  (length body <= Z.to_nat (width g) * Z.to_nat (height g))%nat.
Proof.
  intros Hnd Hin. rewrite <- length_allCells.
  apply NoDup_incl_length; [exact Hnd|].
  intros c Hc. apply allCells_complete.
  rewrite Forall_forall in Hin. now apply Hin.
Qed.

(** ** The invariant of the game loop *)

Lemma newHead_adjacent (d : Direction) (head : Cell) :
  d <> STOP ->
  Int32.min_int < fst head < Int32.max_int ->
  Int32.min_int < snd head < Int32.max_int ->
  adjacent (newHead d head) head.
Proof.
  intros Hd Hx Hy. unfold adjacent, newHead.
  destruct d; [contradiction | | | |]; cbn [fst snd];
    rewrite wrap_small by (unfold Int32.in_range; lia); lia.
Qed.

Lemma game_inv_gameOver (b : bool) (g : Game) :
  game_inv g -> game_inv (set_gameOver b g).
Proof. intros []. constructor; assumption. Qed.

Lemma game_inv_dir (d : Direction) (g : Game) :
  d <> STOP -> game_inv g -> game_inv (set_dir d g).
Proof. intros Hd []. constructor; assumption. Qed.

Lemma input_inv (p : Platform) (kb : list ascii) (g : Game) :
  game_inv g -> game_inv (snd (input p kb g)).
Proof.
  intros Hinv.
  destruct (input_cases p kb g) as [-> | [[d [Hd ->]] | ->]].
  - exact Hinv.
  - now apply game_inv_dir.
  - now apply game_inv_gameOver.
Qed.

Lemma logic_inv (fuel : nat) (r r' : Rand) (g g' : Game) :
  game_inv g -> logic fuel r g = Done (r', g') -> game_inv g'.
Proof.
  intros Hinv H.
  destruct (logic_cases _ _ _ _ _ H) as [head [Hhd Hcases]]. cbv zeta in Hcases.
  set (h := newHead (dir g) head) in *.
  destruct Hcases as [[-> _] | [[Hin [Hoff [Hfood [c [Hc ->]]]]]
                               | [Hin [Hoff [Hfood ->]]]]].
  - now apply game_inv_gameOver.
  - (* the move eats the food *)
    destruct Hinv as [Hw Hh Hd Hnd Hins Hlen Hcont Hf Hsc].
    assert (Hgrown : NoDup (h :: snake g)) by (constructor; assumption).
    assert (Hgin : Forall (inBounds g) (h :: snake g))
      by (constructor; assumption).
    pose proof (body_fits g _ Hgrown Hgin) as Hfit.
    rewrite Hw, Hh in Hfit. change (Z.to_nat 40 * Z.to_nat 20)%nat
      with 800%nat in Hfit. cbn [length] in Hfit.
    constructor; cbn [width height dir snake food score
                      set_food set_score set_snake].
    + exact Hw.
    + exact Hh.
    + exact Hd.
    + exact Hgrown.
    + exact Hgin.
    + cbn [length]. lia.
    + destruct (snake g) as [|head' body] eqn:Es; [discriminate|].
      injection Hhd as ->. split; [|exact Hcont].
      apply Forall_inv in Hins. destruct Hins as [Hx Hy].
      apply newHead_adjacent; [exact Hd | |];
        unfold Int32.min_int, Int32.max_int; lia.
    + now apply onSnake_not_In.
    + cbn [length]. rewrite Hsc. rewrite wrap_small.
      * lia.
      * unfold Int32.in_range, Int32.min_int, Int32.max_int. lia.
  - (* a plain move *)
    destruct Hinv as [Hw Hh Hd Hnd Hins Hlen Hcont Hf Hsc].
    assert (Hgrown : NoDup (h :: snake g)) by (constructor; assumption).
    assert (Hgin : Forall (inBounds g) (h :: snake g))
      by (constructor; assumption).
    constructor; cbn [width height dir snake food score set_snake].
    + exact Hw.
    + exact Hh.
    + exact Hd.
    + now apply NoDup_removelast.
    + now apply Forall_removelast.
    + now rewrite length_removelast_cons.
    + apply contiguous_removelast.
      destruct (snake g) as [|head' body] eqn:Es; [discriminate|].
      injection Hhd as ->. split; [|exact Hcont].
      apply Forall_inv in Hins. destruct Hins as [Hx Hy].
      apply newHead_adjacent; [exact Hd | |];
        unfold Int32.min_int, Int32.max_int; lia.
    + apply onSnake_not_In. intros Hon. apply In_removelast in Hon.
      destruct Hon as [E|Hon]; [now apply Hfood|].
      apply onSnake_not_In in Hf. now apply Hf.
    + now rewrite length_removelast_cons.
Qed.

Lemma frame_inv (p : Platform) (fuel : nat) (kb kb' : list ascii)
  (r r' : Rand) (g g' : Game) :
  game_inv g -> frame p fuel kb r g = Done (kb', r', g') -> game_inv g'.
Proof.
  unfold frame. intros Hinv H.
  pose proof (input_inv p kb g Hinv) as Hinv1.
  destruct (input p kb g) as [kb1 g1]. cbn [snd] in Hinv1.
  destruct (logic fuel r g1) as [[r1 g2]| |] eqn:E; try discriminate.
  injection H as _ _ <-. exact (logic_inv _ _ _ _ _ Hinv1 E).
Qed.

Lemma initGame_inv (fuel : nat) (seeded r : Rand) (g0 g : Game) :
  width g0 = 40 -> height g0 = 20 ->
  initGame fuel seeded g0 = Done (r, g) -> game_inv g.
Proof.
  intros Hw Hh H. apply initGame_fields in H.
  destruct H as [Hs [Hd [Hsc [_ [Hw' [Hh' Hf]]]]]].
  assert (Hbody : startBody g0 = [(20, 10); (19, 10); (18, 10)]).
  { unfold startBody. rewrite Hw, Hh. reflexivity. }
  rewrite Hbody in Hs.
  constructor; rewrite ?Hs, ?Hd, ?Hsc, ?Hw', ?Hh'; try assumption.
  - discriminate.
  - rewrite <- Hbody. apply startBody_NoDup.
  - repeat constructor; cbn [fst snd]; lia.
  - apply Nat.le_refl.
  - repeat split.
  - rewrite Hs in Hf. exact Hf.
  - reflexivity.
Qed.

Lemma reachable_inv (g : Game) : reachable g -> game_inv g.
Proof.
  induction 1 as [fuel seeded r g H | fuel seeded r g0 g _ IH _ H
                 | p fuel kb r kb' r' g g' _ IH _ H].
  - now apply (initGame_inv fuel seeded r globals0 g eq_refl eq_refl H).
  - destruct IH as [Hw Hh]. now apply (initGame_inv _ _ _ _ _ Hw Hh H).
  - exact (frame_inv _ _ _ _ _ _ _ _ IH H).
Qed.

Lemma fresh_game_reachable : reachable fresh_game.
Proof. now apply (reach_init 1 zeros zeros fresh_game). Qed.

Lemma turned_up_reachable : reachable turned_up.
Proof.
  apply (reach_frame Posix 0 ["w"%char] zeros [] zeros fresh_game).
  - exact fresh_game_reachable.
  - reflexivity.
  - reflexivity.
Qed.

(** ** Invariants of the running game *)

(** X1.  Whenever the loop of [main] tests [gameOver], the food is on no
    cell of the snake: [placeFood] puts it off the body, and a move that
    does not eat never steps onto it. *)
Theorem food_off_snake (g : Game) :
  reachable g -> ~ In (food g) (snake g).
Proof.
  intros H. apply onSnake_not_In. exact (inv_food g (reachable_inv g H)).
Qed.

Lemma food_off_snake_witness : ~ In (food turned_up) (snake turned_up).
Proof. apply (food_off_snake turned_up). exact turned_up_reachable. Defined.

(** X2.  The grid stays 40 by 20, and every cell of the snake is inside
    it: a move that would leave the grid ends the game instead. *)
Theorem snake_inside_grid (g : Game) :
  reachable g ->
  width g = 40 /\ height g = 20 /\
  forall c, In c (snake g) -> 0 <= fst c < 40 /\ 0 <= snd c < 20.
Proof.
  intros H. destruct (reachable_inv g H) as [Hw Hh _ _ Hins _ _ _ _].
  split; [exact Hw|]. split; [exact Hh|].
  intros c Hc. rewrite Forall_forall in Hins. specialize (Hins c Hc).
  unfold inBounds in Hins. now rewrite Hw, Hh in Hins.
Qed.

Lemma snake_inside_grid_witness :
  width turned_up = 40 /\ height turned_up = 20 /\
  forall c, In c (snake turned_up) -> 0 <= fst c < 40 /\ 0 <= snd c < 20.
Proof. apply (snake_inside_grid turned_up). exact turned_up_reachable. Defined.

(** X3.  The score counts the growth of the snake: it is ten times the
    number of cells beyond the first three.  The snake has between 3 and 800
    cells, so the score lies between 0 and 7970 and [score += 10] never
    overflows. *)
Theorem score_counts_growth (g : Game) :
  reachable g ->
  score g = 10 * (Z.of_nat (length (snake g)) - 3) /\
  (3 <= length (snake g) <= 800)%nat /\
  0 <= score g <= 7970.
Proof.
  intros H. destruct (reachable_inv g H) as [Hw Hh _ Hnd Hins Hlen _ _ Hsc].
  pose proof (body_fits g _ Hnd Hins) as Hfit. rewrite Hw, Hh in Hfit.
  change (Z.to_nat 40 * Z.to_nat 20)%nat with 800%nat in Hfit.
  split; [exact Hsc|]. split; [lia|]. lia.
Qed.

Lemma score_counts_growth_witness :
  score turned_up = 10 * (Z.of_nat (length (snake turned_up)) - 3) /\
  (3 <= length (snake turned_up) <= 800)%nat /\
  0 <= score turned_up <= 7970.
Proof. apply (score_counts_growth turned_up). exact turned_up_reachable. Defined.

(** X4.  Once [initGame] has run, the direction is never STOP again, so
    the new head [logic] computes always differs from the head: the
    [default] branch of its [switch] is never taken. *)
Theorem snake_always_moves (g : Game) (head : Cell) :
  reachable g ->
  hd_error (snake g) = Some head ->
  dir g <> STOP /\ newHead (dir g) head <> head.
Proof.
  intros H Hhd. destruct (reachable_inv g H) as [Hw Hh Hd _ Hins _ _ _ _].
  split; [exact Hd|].
  destruct (snake g) as [|c body]; [discriminate|]. injection Hhd as ->.
  apply Forall_inv in Hins. destruct Hins as [Hx Hy]. rewrite Hw in Hx.
  rewrite Hh in Hy.
  assert (Hadj : adjacent (newHead (dir g) head) head).
  { apply newHead_adjacent; [exact Hd | |];
      unfold Int32.min_int, Int32.max_int; lia. }
  intros E. rewrite E in Hadj. unfold adjacent in Hadj. lia.
Qed.

Lemma snake_always_moves_witness :
  dir turned_up <> STOP /\ newHead (dir turned_up) (20, 9) <> (20, 9).
Proof.
  apply (snake_always_moves turned_up (20, 9)).
  - exact turned_up_reachable.
  - reflexivity.
Defined.

(** X5.  The snake is one connected chain: each of its cells is a
    horizontal or vertical neighbour of the next. *)
Theorem snake_is_contiguous (g : Game) :
  reachable g -> contiguous (snake g).
Proof.
  intros H. exact (inv_contiguous g (reachable_inv g H)).
Qed.

Lemma snake_is_contiguous_witness : contiguous (snake turned_up).
Proof. apply (snake_is_contiguous turned_up). exact turned_up_reachable. Defined.

(** ** The end of the game *)

Lemma input_keeps_gameOver (p : Platform) (kb : list ascii) (g : Game) :
  gameOver g = true -> gameOver (snd (input p kb g)) = true.
Proof.
  intros H.
  destruct (input_cases p kb g) as [-> | [[d [_ ->]] | ->]];
    [exact H | exact H | reflexivity].
Qed.

Lemma logic_keeps_gameOver (fuel : nat) (r r' : Rand) (g g' : Game) :
  gameOver g = true -> logic fuel r g = Done (r', g') -> gameOver g' = true.
Proof.
  intros Hg H.
  destruct (logic_cases _ _ _ _ _ H) as [head [_ Hcases]]. cbv zeta in Hcases.
  destruct Hcases as [[-> _] | [[_ [_ [_ [c [_ ->]]]]] | [_ [_ [_ ->]]]]];
    [reflexivity | exact Hg | exact Hg].
Qed.

(** X6.  Nothing in a frame clears [gameOver]: neither [input] nor [logic]
    ever writes [false] to it, so a frame started with the flag set returns
    with the flag set.  Only [initGame] starts a new game. *)
Theorem gameOver_is_final (p : Platform) (fuel : nat) (kb kb' : list ascii)
  (r r' : Rand) (g g' : Game) :
  gameOver g = true ->
  frame p fuel kb r g = Done (kb', r', g') ->
  gameOver g' = true.
Proof.
  unfold frame. intros Hg H.
  pose proof (input_keeps_gameOver p kb g Hg) as Hg1.
  destruct (input p kb g) as [kb1 g1]. cbn [snd] in Hg1.
  destruct (logic fuel r g1) as [[r1 g2]| |] eqn:E; try discriminate.
  injection H as _ _ <-. exact (logic_keeps_gameOver _ _ _ _ _ Hg1 E).
Qed.

Lemma gameOver_is_final_witness :
  gameOver (set_gameOver true (set_snake [(21, 10); (20, 10); (19, 10)]
                                         (set_gameOver true fresh_game)))
  = true.
Proof.
  apply (gameOver_is_final Posix 0 [] [] zeros zeros
           (set_gameOver true fresh_game)); reflexivity.
Defined.

(** X7.  The key [q] (or [Q]): [input] consumes that one byte and sets
    [gameOver], changing nothing else, whatever the state and the bytes
    behind it.  [logic] still runs in the same frame, on the state with the
    flag set; the frame does exactly what that call of [logic] does, and if
    it returns, it returns with [gameOver] set and the later bytes still
    pending. *)
Theorem quit_key_ends_game (p : Platform) (fuel : nat) (c : ascii)
  (rest : list ascii) (r : Rand) (g : Game) :
  c = "q"%char \/ c = "Q"%char ->
  input p (c :: rest) g = (rest, set_gameOver true g) /\
  frame p fuel (c :: rest) r g =
    match logic fuel r (set_gameOver true g) with
    | Done (r', g') => Done (rest, r', g')
    | Undefined => Undefined
    | OutOfFuel => OutOfFuel
    end /\
  (forall kb' r' g',
     frame p fuel (c :: rest) r g = Done (kb', r', g') ->
     kb' = rest /\ gameOver g' = true).
Proof.
  intros Hc.
  assert (Hin : input p (c :: rest) g = (rest, set_gameOver true g))
    by (destruct Hc as [-> | ->]; destruct p; reflexivity).
  assert (Hfr : frame p fuel (c :: rest) r g =
                match logic fuel r (set_gameOver true g) with
                | Done (r', g') => Done (rest, r', g')
                | Undefined => Undefined
                | OutOfFuel => OutOfFuel
                end)
    by (unfold frame; now rewrite Hin).
  split; [exact Hin|]. split; [exact Hfr|].
  intros kb' r' g' H. rewrite Hfr in H.
  destruct (logic fuel r (set_gameOver true g)) as [[r1 g2]| |] eqn:E;
    try discriminate.
  injection H as <- _ <-. split; [reflexivity|].
  exact (logic_keeps_gameOver fuel r r1 (set_gameOver true g) g2 eq_refl E).
Qed.

(** In the witness the snake still makes its move in the frame that quits. *)
Lemma quit_key_ends_game_witness :
  input Posix ["q"%char; "w"%char] fresh_game
  = (["w"%char], set_gameOver true fresh_game) /\
  frame Posix 0 ["q"%char; "w"%char] zeros fresh_game
  = Done (["w"%char], zeros,
          set_snake [(21, 10); (20, 10); (19, 10)]
            (set_gameOver true fresh_game)) /\
  (forall kb' r' g',
     frame Posix 0 ["q"%char; "w"%char] zeros fresh_game = Done (kb', r', g') ->
     kb' = ["w"%char] /\ gameOver g' = true).
Proof.
  apply (quit_key_ends_game Posix 0 "q"%char ["w"%char] zeros fresh_game).
  now left.
Defined.

(** ** Reading the keyboard *)

(** Closes the four facts about the bytes a call of [input] used, for a
    non-empty keyboard. *)
Ltac used_up :=
  split; [reflexivity|]; split; [simpl; lia|];
  split; [intros Hnil; discriminate Hnil | intros _; discriminate].

(** X8.  One call of [input] takes its bytes from the front of the pending
    ones and leaves the rest in place: it reads at most three bytes (an
    escape sequence), at least one when a byte is pending, and none
    otherwise. *)
Theorem input_consumes_prefix (p : Platform) (kb : list ascii) (g : Game) :
  exists used, kb = used ++ fst (input p kb g) /\
    (length used <= 3)%nat /\
    (kb = [] -> used = []) /\ (kb <> [] -> used <> []).
Proof.
  unfold input. destruct kb as [|c kb].
  { exists []. split; [reflexivity|]. split; [simpl; lia|]. tauto. }
  cbn [kbhit_nonblocking negb getch_nonblocking].
  assert (H1 : forall g' : Game,
            exists used, c :: kb = used ++ fst (kb, g') /\
              (length used <= 3)%nat /\
              (c :: kb = [] -> used = []) /\ (c :: kb <> [] -> used <> [])).
  { intros g'. exists [c]. used_up. }
  destruct (is_char c 0); [apply H1|].
  destruct (is_char c 27).
  - unfold input_escape. destruct kb as [|c2 kb];
      cbn [kbhit_nonblocking getch_nonblocking].
    { exists [c]. used_up. }
    destruct kb as [|c3 kb]; cbn [kbhit_nonblocking getch_nonblocking].
    { exists [c; c2]. used_up. }
    exists [c; c2; c3].
    repeat match goal with
           | |- context [if ?b then _ else _] => destruct b
           end; used_up.
  - destruct p; [apply H1|].
    destruct (false || is_char c 224); [|apply H1].
    unfold input_win32. destruct kb as [|c2 kb];
      cbn [kbhit_nonblocking getch_nonblocking].
    { exists [c]. used_up. }
    exists [c; c2].
    repeat match goal with
           | |- context [if ?b then _ else _] => destruct b
           end; used_up.
Qed.

(** X9.  Only an arrow key can turn the snake around: when the first
    pending byte is not ESC (and, on Windows, not 224), [input] never sets
    the direction to the opposite of the current one. *)
Theorem input_reverses_only_by_arrow (p : Platform) (c : ascii)
  (rest : list ascii) (g : Game) :
  dir g <> STOP ->
  is_char c 27 = false ->
  (p = Win32 -> is_char c 224 = false) ->
  dir (snd (input p (c :: rest) g)) <> opposite (dir g).
Proof.
  intros Hstop Hesc Hwin. unfold input.
  cbn [kbhit_nonblocking negb getch_nonblocking].
  destruct (is_char c 0).
  { cbn [snd]. destruct (dir g); [contradiction | | | |]; discriminate. }
  rewrite Hesc. destruct p.
  - now apply input_wasd_never_reverses.
  - rewrite (Hwin eq_refl). cbn [orb snd].
    now apply input_wasd_never_reverses.
Qed.

Lemma input_reverses_only_by_arrow_witness :
  dir (snd (input Win32 ["a"%char; "s"%char] fresh_game))
  <> opposite (dir fresh_game).
Proof.
  apply (input_reverses_only_by_arrow Win32 "a"%char ["s"%char] fresh_game).
  - discriminate.
  - reflexivity.
  - reflexivity.
Defined.

(** ** The pace of the game *)

Lemma quot5_bounds (sc : Z) :
  Int32.in_range sc -> -429496729 <= Z.quot sc 5 <= 429496729.
Proof.
  unfold Int32.in_range, Int32.min_int, Int32.max_int. intros [Hlo Hhi]. split.
  - change (-429496729) with (Z.quot (-2147483648) 5).
    apply Z.quot_le_mono; lia.
  - change 429496729 with (Z.quot 2147483647 5).
    apply Z.quot_le_mono; lia.
Qed.

Lemma delay_unclamped (sc : Z) :
  Int32.in_range sc -> delay sc = 120 - Z.min 80 (Z.quot sc 5).
Proof.
  intros Hsc. pose proof (quot5_bounds sc Hsc) as Hq.
  unfold delay, baseDelayMs. rewrite wrap_small.
  - destruct (Z.ltb_spec (120 - Z.min 80 (Z.quot sc 5)) 40); lia.
  - unfold Int32.in_range, Int32.min_int, Int32.max_int. lia.
Qed.

(** X10.  For every [int] score the subtraction in [main] cannot overflow
    and never yields less than 40, so the test [delay < 40] never fires:
    the delay is [120 - min(80, score / 5)].  It is at most 120 for scores
    from 0 up, and it is at its floor of 40 exactly from score 400 on. *)
Theorem delay_clamp_never_fires (sc : Z) :
  Int32.in_range sc ->
  delay sc = 120 - Z.min 80 (Z.quot sc 5) /\
  40 <= delay sc /\
  (0 <= sc -> delay sc <= 120) /\
  (delay sc = 40 <-> 400 <= sc).
Proof.
  intros Hsc. pose proof (quot5_bounds sc Hsc) as Hq.
  rewrite (delay_unclamped sc Hsc).
  split; [reflexivity|]. split; [lia|]. split.
  - intros H0. pose proof (Z.quot_le_mono 0 sc 5 ltac:(lia) H0) as H.
    change (Z.quot 0 5) with 0 in H. lia.
  - split; intros H.
    + destruct (Z.le_gt_cases 400 sc) as [Hle|Hgt]; [exact Hle|].
      pose proof (Z.quot_le_mono sc 399 5 ltac:(lia) ltac:(lia)) as H'.
      change (Z.quot 399 5) with 79 in H'. lia.
    + pose proof (Z.quot_le_mono 400 sc 5 ltac:(lia) H) as H'.
      change (Z.quot 400 5) with 80 in H'. lia.
Qed.

Lemma delay_clamp_never_fires_witness :
  delay (-2147483648) = 120 - Z.min 80 (Z.quot (-2147483648) 5) /\
  40 <= delay (-2147483648) /\
  (0 <= -2147483648 -> delay (-2147483648) <= 120) /\
  (delay (-2147483648) = 40 <-> 400 <= -2147483648).
Proof.
  apply (delay_clamp_never_fires (-2147483648)).
  unfold Int32.in_range, Int32.min_int, Int32.max_int. lia.
Defined.

(** X11.  A higher score never gives a longer delay. *)
Theorem delay_monotone (a b : Z) :
  Int32.in_range a -> Int32.in_range b -> a <= b -> delay b <= delay a.
Proof.
  intros Ha Hb Hab. rewrite (delay_unclamped a Ha), (delay_unclamped b Hb).
  pose proof (Z.quot_le_mono a b 5 ltac:(lia) Hab). lia.
Qed.

Lemma delay_monotone_witness : delay 250 <= delay 40.
Proof.
  apply (delay_monotone 40 250);
    unfold Int32.in_range, Int32.min_int, Int32.max_int; lia.
Defined.

(** ** More on placeFood and initGame *)

(** X12.  Whenever [placeFood] returns, it has drawn two values of
    [rand()] per attempt, found every earlier sample on the snake, and set
    [food] to the first sample that is off the snake; nothing else of the
    globals has changed. *)
Theorem placeFood_returns_first_free (fuel : nat) :
  forall (r r' : Rand) (g g' : Game),
    placeFood fuel r g = Done (r', g') ->
    exists j, (j < fuel)%nat /\
      (forall i, (i < j)%nat -> In (sample g r i) (snake g)) /\
      ~ In (sample g r j) (snake g) /\
      g' = set_food (sample g r j) g /\
      forall n, r' n = r (2 * S j + n)%nat.
Proof.
  induction fuel as [|fuel IH]; intros r r' g g' H; [discriminate|].
  assert (Hw : width g <> 0).
  { intros E. simpl in H. rewrite E in H. discriminate. }
  assert (Hh : height g <> 0).
  { intros E. simpl in H. apply Z.eqb_neq in Hw. rewrite Hw, E in H.
    discriminate. }
  rewrite placeFood_step in H by assumption.
  destruct (onSnake (sample g r 0) (snake g)) eqn:E0.
  - destruct (IH _ _ _ _ H) as [j [Hj [Hrej [Hfree [Hg Hr]]]]].
    exists (S j). split; [lia|]. split; [|split; [|split]].
    + intros [|i] Hi; [now apply onSnake_In|].
      rewrite <- sample_shift. apply Hrej. lia.
    + now rewrite <- sample_shift.
    + now rewrite <- sample_shift.
    + intros n. rewrite Hr. f_equal. lia.
  - injection H as <- <-. exists O. split; [lia|]. split; [|split; [|split]].
    + intros i Hi. lia.
    + now apply onSnake_not_In.
    + reflexivity.
    + intros n. reflexivity.
Qed.

Lemma placeFood_returns_first_free_witness :
  exists j, (j < 2)%nat /\
    (forall i, (i < j)%nat ->
       In (sample fresh_game head_then_zeros i) (snake fresh_game)) /\
    ~ In (sample fresh_game head_then_zeros j) (snake fresh_game) /\
    fresh_game = set_food (sample fresh_game head_then_zeros j) fresh_game /\
    forall n, zeros n = head_then_zeros (2 * S j + n)%nat.
Proof.
  apply (placeFood_returns_first_free 2 head_then_zeros zeros fresh_game
           fresh_game).
  reflexivity.
Defined.

Lemma placeFood_same_grid (fuel : nat) :
  forall (r : Rand) (ga gb : Game),
    width ga = width gb -> height ga = height gb -> snake ga = snake gb ->
    match placeFood fuel r ga, placeFood fuel r gb with
    | Done (ra, a), Done (rb, b) =>
        ra = rb /\ food a = food b /\
        a = set_food (food a) ga /\ b = set_food (food b) gb
    | Undefined, Undefined => True
    | OutOfFuel, OutOfFuel => True
    | _, _ => False
    end.
Proof.
  induction fuel as [|fuel IH]; intros r ga gb Hw Hh Hs; [exact I|].
  simpl. rewrite <- Hw, <- Hh, <- Hs.
  destruct (width ga =? 0); [exact I|].
  destruct (height ga =? 0); [exact I|].
  destruct (onSnake _ (snake ga)).
  - now apply IH.
  - repeat split.
Qed.

(** X13.  [initGame] overwrites the snake, the direction, the score, the
    food and [gameOver]: what it returns depends on the old globals through
    [width] and [height] only, so a game started by "play again" is the
    game a first start gives for the same random sequence. *)
Theorem initGame_forgets_old_game (fuel : nat) (seeded : Rand) (ga gb : Game) :
  width ga = width gb -> height ga = height gb ->
  initGame fuel seeded ga = initGame fuel seeded gb.
Proof.
  intros Hw Hh. unfold initGame.
  assert (Hb : startBody ga = startBody gb)
    by (unfold startBody; now rewrite Hw, Hh).
  pose proof (placeFood_same_grid fuel seeded
                (set_score 0 (set_dir RIGHT (set_snake (startBody ga) ga)))
                (set_score 0 (set_dir RIGHT (set_snake (startBody gb) gb)))
                Hw Hh Hb) as H.
  destruct (placeFood fuel seeded
              (set_score 0 (set_dir RIGHT (set_snake (startBody ga) ga))))
    as [[ra a]| |];
  destruct (placeFood fuel seeded
              (set_score 0 (set_dir RIGHT (set_snake (startBody gb) gb))))
    as [[rb b]| |]; try contradiction; try reflexivity.
  destruct H as [-> [Hf [-> ->]]].
  cbn [food set_food] in Hf.
  unfold set_gameOver, set_food, set_score, set_dir, set_snake.
  cbn [width height gameOver score dir food snake].
  now rewrite Hw, Hh, Hb, Hf.
Qed.

Lemma initGame_forgets_old_game_witness :
  initGame 1 zeros coiled = initGame 1 zeros globals0.
Proof.
  apply (initGame_forgets_old_game 1 zeros coiled globals0); reflexivity.
Defined.

(** ** The body after a move *)

Lemma nth_error_removelast (A : Type) (l : list A) :
  forall i, (S i < length l)%nat ->
    nth_error (removelast l) i = nth_error l i.
Proof.
  induction l as [|a [|b l] IH]; intros i Hi.
  - simpl in Hi. lia.
  - simpl in Hi. lia.
  - change (removelast (a :: b :: l)) with (a :: removelast (b :: l)).
    destruct i as [|i]; [reflexivity|].
    cbn [nth_error]. apply IH. simpl in *. lia.
Qed.

(** X14.  On a move that does not eat, the body follows the head: the new
    head comes first, every segment takes the cell of the segment before
    it, and the cell of the old tail is given up. *)
Theorem logic_body_follows (fuel : nat) (r : Rand) (g : Game) (head h : Cell) :
  hd_error (snake g) = Some head ->
  newHead (dir g) head = h ->
  inBounds g h ->
  onSnake h (snake g) = false ->
  h <> food g ->
  exists g', logic fuel r g = Done (r, g') /\
    nth_error (snake g') 0 = Some h /\
    (forall i, (S i < length (snake g))%nat ->
       nth_error (snake g') (S i) = nth_error (snake g) i) /\
    length (snake g') = length (snake g).
Proof.
  intros Hhd Hh Hin Hoff Hfood.
  exists (set_snake (removelast (h :: snake g)) g). split.
  - rewrite (logic_move fuel r g head Hhd);
      [| rewrite Hh; now apply hitsWall_false | now rewrite Hh].
    rewrite Hh. cbv zeta.
    destruct ((fst h =? fst (food g)) && (snd h =? snd (food g))) eqn:E.
    + exfalso. apply Hfood. apply andb_true_iff in E. destruct E as [Ex Ey].
      apply Z.eqb_eq in Ex, Ey. destruct h, (food g). simpl in *. congruence.
    + reflexivity.
  - cbn [snake set_snake]. split; [|split].
    + destruct (snake g); [discriminate | reflexivity].
    + intros i Hi. rewrite nth_error_removelast by (simpl; lia). reflexivity.
    + apply length_removelast_cons.
Qed.

Lemma logic_body_follows_witness :
  exists g', logic 0 zeros turned_up = Done (zeros, g') /\
    nth_error (snake g') 0 = Some (20, 8) /\
    (forall i, (S i < length (snake turned_up))%nat ->
       nth_error (snake g') (S i) = nth_error (snake turned_up) i) /\
    length (snake g') = length (snake turned_up).
Proof.
  apply (logic_body_follows 0 zeros turned_up (20, 9) (20, 8)).
  - reflexivity.
  - reflexivity.
  - unfold inBounds. simpl. lia.
  - reflexivity.
  - discriminate.
Defined.

(** ** The screen *)

Lemma cell_test (x y : Z) (c : Cell) :
  (x =? fst c) && (y =? snd c) = true <-> (x, y) = c.
Proof.
  destruct c as [cx cy]. cbn [fst snd].
  rewrite andb_true_iff, !Z.eqb_eq. split.
  - intros [-> ->]. reflexivity.
  - intros [= -> ->]. split; reflexivity.
Qed.

Lemma cell_test_sym (x y : Z) (c : Cell) :
  (fst c =? x) && (snd c =? y) = true <-> c = (x, y).
Proof.
  rewrite (Z.eqb_sym (fst c)), (Z.eqb_sym (snd c)), cell_test.
  split; intros H; now symmetry.
Qed.

(** Past the head, the scan of [draw] prints [o] for a cell of the snake. *)
Lemma snakeGlyph_tail (x y : Z) (body : list Cell) :
  forall i, snakeGlyph (S i) body x y =
            if onSnake (x, y) body then Some "o"%char else None.
Proof.
  induction body as [|s body IH]; intros i; [reflexivity|].
  cbn [snakeGlyph onSnake existsb fst snd].
  destruct ((fst s =? x) && (snd s =? y)); [reflexivity|].
  cbn [orb]. apply IH.
Qed.

(** Settles the four equivalences about a glyph once the tests of
    [cellGlyph] are decided. *)
Ltac glyph_facts :=
  repeat apply conj; intros Hg; try discriminate Hg;
  cbn [hd_error In] in *; unfold Cell in *; subst;
  intuition (try discriminate; congruence).

(** X15.  What [draw] prints for a cell: [@] exactly for the food cell,
    even when the snake lies on it; otherwise [O] exactly for the cell of
    the head, [o] exactly for the other cells of the snake, and a blank
    exactly for the cells off the snake. *)
Theorem draw_cell_glyph (g : Game) (x y : Z) :
  (cellGlyph g x y = "@"%char <-> (x, y) = food g) /\
  (cellGlyph g x y = "O"%char <->
     (x, y) <> food g /\ hd_error (snake g) = Some (x, y)) /\
  (cellGlyph g x y = "o"%char <->
     (x, y) <> food g /\ hd_error (snake g) <> Some (x, y) /\
     In (x, y) (snake g)) /\
  (cellGlyph g x y = " "%char <-> (x, y) <> food g /\ ~ In (x, y) (snake g)).
Proof.
  unfold cellGlyph.
  pose proof (cell_test x y (food g)) as Hf.
  destruct ((x =? fst (food g)) && (y =? snd (food g))).
  { assert (E : (x, y) = food g) by now apply Hf. glyph_facts. }
  assert (Hnf : (x, y) <> food g) by (intros E; apply Hf in E; discriminate).
  clear Hf. destruct (snake g) as [|s rest].
  { cbn [snakeGlyph]. glyph_facts. }
  cbn [snakeGlyph].
  pose proof (cell_test_sym x y s) as Hs.
  destruct ((fst s =? x) && (snd s =? y)).
  { assert (E : s = (x, y)) by now apply Hs. clear Hs. cbn [Nat.eqb].
    glyph_facts. }
  assert (Hns : s <> (x, y)) by (intros E; apply Hs in E; discriminate).
  clear Hs. rewrite snakeGlyph_tail.
  pose proof (onSnake_In (x, y) rest) as Hr.
  destruct (onSnake (x, y) rest).
  - assert (Hin : In (x, y) rest) by now apply Hr. clear Hr. glyph_facts.
  - assert (Hout : ~ In (x, y) rest) by (intros E; apply Hr in E; discriminate).
    clear Hr. glyph_facts.
Qed.

Lemma zrange_length (n : Z) : length (zrange n) = Z.to_nat n.
Proof. unfold zrange. now rewrite length_map, length_seq. Qed.

Lemma zrange_nth_error (n : Z) (k : nat) :
  (k < Z.to_nat n)%nat -> nth_error (zrange n) k = Some (Z.of_nat k).
Proof.
  intros Hk. unfold zrange. apply map_nth_error.
  rewrite nth_error_seq. apply Nat.ltb_lt in Hk. now rewrite Hk.
Qed.

Lemma border_length (g : Game) :
  0 <= width g -> width g + 2 <= Int32.max_int ->
  length (border g) = (Z.to_nat (width g) + 2)%nat.
Proof.
  intros H0 Hmax. unfold border. rewrite repeat_length, wrap_small.
  - lia.
  - unfold Int32.in_range, Int32.min_int, Int32.max_int in *. lia.
Qed.

Lemma drawRow_length (g : Game) (y : Z) :
  length (drawRow g y) = (Z.to_nat (width g) + 3)%nat.
Proof.
  unfold drawRow. cbn [length].
  rewrite length_app, length_map, zrange_length. simpl. lia.
Qed.

Lemma drawRow_nth (g : Game) (x y : Z) :
  0 <= x < width g ->
  nth_error (drawRow g y) (S (Z.to_nat x)) = Some (cellGlyph g x y).
Proof.
  intros Hx. unfold drawRow. cbn [nth_error].
  rewrite nth_error_app1 by (rewrite length_map, zrange_length; lia).
  rewrite (map_nth_error _ _ _ (zrange_nth_error (width g) (Z.to_nat x)
                                  ltac:(lia))).
  now rewrite Z2Nat.id by lia.
Qed.

(** In a text made of rows of one length, row [k] starts at [k * len]. *)
Lemma nth_error_rows (f : Z -> list ascii) (len : nat) :
  (forall y, length (f y) = len) ->
  forall (ys : list Z) (k j : nat) (v : Z),
    nth_error ys k = Some v -> (j < len)%nat ->
    nth_error (flat_map f ys) (k * len + j) = nth_error (f v) j.
Proof.
  intros Hlen. induction ys as [|a ys IH]; intros k j v Hk Hj.
  - destruct k; discriminate.
  - cbn [flat_map]. destruct k as [|k].
    + injection Hk as ->. cbn [Nat.mul Nat.add].
      apply nth_error_app1. now rewrite Hlen.
    + cbn [nth_error] in Hk.
      rewrite nth_error_app2 by (rewrite Hlen; simpl; lia).
      rewrite Hlen.
      replace (S k * len + j - len)%nat with (k * len + j)%nat
        by (simpl; lia).
      now apply IH.
Qed.

Lemma nth_error_app_Some (A : Type) (l l' : list A) (i : nat) (v : A) :
  nth_error l i = Some v -> nth_error (l ++ l') i = Some v.
Proof.
  intros H. rewrite nth_error_app1; [exact H|].
  apply nth_error_Some. congruence.
Qed.

(** X16.  The layout of the screen: for a cell (x,y) of the grid, the byte
    of [draw]'s output at the offset of column [x + 1] in row [y + 1],
    counted after the clear sequence with every line [width + 3] bytes
    long, is the character of that cell. *)
Theorem draw_shows_cell_at_offset (p : Platform) (g : Game) (x y : Z) :
  inBounds g (x, y) ->
  width g + 2 <= Int32.max_int ->
  nth_error (draw p g) (cellOffset p g x y) = Some (cellGlyph g x y).
Proof.
  intros [Hx Hy] Hmax. cbn [fst snd] in Hx, Hy.
  unfold draw, cellOffset.
  rewrite nth_error_app2 by lia.
  rewrite nth_error_app2 by (rewrite border_length; lia).
  rewrite border_length by lia.
  rewrite nth_error_app2 by (simpl; lia).
  apply nth_error_app_Some.
  replace (length (clearScreen p) + (Z.to_nat (width g) + 2) + 1
           + Z.to_nat y * (Z.to_nat (width g) + 3) + 1 + Z.to_nat x
           - length (clearScreen p) - (Z.to_nat (width g) + 2)
           - length [newline])%nat
    with (Z.to_nat y * (Z.to_nat (width g) + 3) + S (Z.to_nat x))%nat
    by (simpl; lia).
  rewrite (nth_error_rows (drawRow g) (Z.to_nat (width g) + 3)
             (drawRow_length g) (zrange (height g)) (Z.to_nat y)
             (S (Z.to_nat x)) y).
  - now apply drawRow_nth.
  - rewrite zrange_nth_error by lia. now rewrite Z2Nat.id by lia.
  - lia.
Qed.

(** The food of the fresh game is at (0,0): its [@] is the second byte of
    the second line. *)
Lemma draw_shows_cell_at_offset_witness :
  nth_error (draw Win32 fresh_game) 44 = Some "@"%char.
Proof.
  apply (draw_shows_cell_at_offset Win32 fresh_game 0 0).
  - unfold inBounds. simpl. lia.
  - unfold Int32.max_int. simpl. lia.
Defined.

(** ** The loop of main *)

Lemma mainLoop_over (p : Platform) (n fuel : nat) (keys : list (list ascii))
  (s : Run) :
  gameOver (game s) = true -> mainLoop p n fuel keys s = Done s.
Proof. intros H. destruct n; simpl; [|rewrite H]; reflexivity. Qed.

(** One more iteration of the loop, for a game that is not over. *)
Lemma mainLoop_step (p : Platform) (n fuel : nat) (keys : list (list ascii))
  (s s' : Run) :
  gameOver (game s) = false ->
  mainLoop p (S n) fuel keys s = Done s' ->
  exists kb' r' g',
    frame p fuel (pending s ++ hd [] keys) (randoms s) (game s)
    = Done (kb', r', g') /\
    mainLoop p n fuel (tl keys)
      {| pending := kb'; randoms := r'; game := g';
         screens := screens s ++ [draw p (game s)];
         sleeps := sleeps s ++ [delay (score g')] |} = Done s'.
Proof.
  intros Hrun H. cbn [mainLoop] in H. rewrite Hrun in H.
  destruct (frame p fuel (pending s ++ hd [] keys) (randoms s) (game s))
    as [[[kb' r'] g']| |]; try discriminate.
  now exists kb', r', g'.
Qed.

Lemma roomAhead_nonneg (g : Game) : game_inv g -> 0 <= roomAhead g.
Proof.
  intros [_ _ _ _ Hins _ _ _ _]. unfold roomAhead.
  destruct (snake g) as [|head body]; [lia|].
  apply Forall_inv in Hins. destruct Hins as [Hx Hy].
  destruct (dir g); lia.
Qed.

(** A frame without a key either ends the game or takes the head one cell
    closer to the wall it faces. *)
Lemma idle_frame (p : Platform) (fuel : nat) (kb' : list ascii) (r r' : Rand)
  (g g' : Game) :
  game_inv g ->
  frame p fuel [] r g = Done (kb', r', g') ->
  kb' = [] /\ (gameOver g' = true \/ roomAhead g' = roomAhead g - 1).
Proof.
  intros Hinv H. unfold frame in H. rewrite input_no_key in H.
  destruct (logic fuel r g) as [[r1 g1]| |] eqn:E; try discriminate.
  injection H as <- _ <-. split; [reflexivity|].
  destruct (logic_cases _ _ _ _ _ E) as [head [Hhd Hcases]]. cbv zeta in Hcases.
  destruct Hinv as [Hw Hh Hd _ Hins _ _ _ _].
  destruct (snake g) as [|head' body] eqn:Es; [discriminate|].
  injection Hhd as ->. apply Forall_inv in Hins. destruct Hins as [Hx Hy].
  rewrite Hw in Hx. rewrite Hh in Hy.
  assert (Hroom : forall rest,
            roomAhead (set_snake (newHead (dir g) head :: rest) g)
            = roomAhead g - 1).
  { intros rest. unfold roomAhead. rewrite Es. cbn [snake set_snake dir width height].
    unfold newHead. destruct (dir g); [contradiction | | | |]; cbn [fst snd];
      rewrite wrap_small
        by (unfold Int32.in_range, Int32.min_int, Int32.max_int; lia); lia. }
  destruct Hcases as [[-> _] | [[_ [_ [_ [c [_ ->]]]]] | [_ [_ [_ ->]]]]].
  - now left.
  - right. exact (Hroom (head :: body)).
  - right. exact (Hroom (removelast (head :: body))).
Qed.

Lemma idle_loop (p : Platform) (fuel : nat) :
  forall (n : nat) (s s' : Run),
    game_inv (game s) -> pending s = [] ->
    roomAhead (game s) < Z.of_nat n ->
    mainLoop p n fuel [] s = Done s' ->
    gameOver (game s') = true.
Proof.
  induction n as [|n IH]; intros s s' Hinv Hkb Hroom H.
  - pose proof (roomAhead_nonneg _ Hinv). lia.
  - destruct (gameOver (game s)) eqn:Hg.
    { rewrite mainLoop_over in H by exact Hg. congruence. }
    destruct (mainLoop_step _ _ _ _ _ _ Hg H) as [kb' [r' [g' [Hf Hrest]]]].
    rewrite Hkb in Hf. cbn [hd app] in Hf. cbn [tl] in Hrest.
    destruct (idle_frame _ _ _ _ _ _ _ Hinv Hf) as [-> [Hover | Hcloser]].
    + rewrite mainLoop_over in Hrest by exact Hover.
      injection Hrest as <-. exact Hover.
    + refine (IH _ s' _ _ _ Hrest); cbn [game pending].
      * exact (frame_inv _ _ _ _ _ _ _ _ Hinv Hf).
      * reflexivity.
      * lia.
Qed.

(** X17.  A game left alone is lost: from any state of a running game, if
    no key is pending and none arrives, 40 iterations of the loop of [main]
    that return leave [gameOver] set (the snake has run straight into a
    wall or into itself). *)
Theorem idle_game_ends (p : Platform) (n fuel : nat) (r : Rand) (g : Game)
  (s' : Run) :
  reachable g ->
  (40 <= n)%nat ->
  mainLoop p n fuel [] (startRun r g) = Done s' ->
  gameOver (game s') = true.
Proof.
  intros Hreach Hn H.
  pose proof (reachable_inv g Hreach) as Hinv.
  apply (idle_loop p fuel n (startRun r g) s' Hinv eq_refl); [|exact H].
  cbn [game startRun].
  assert (Hroom : roomAhead g <= 39).
  { destruct Hinv as [Hw Hh _ _ Hins _ _ _ _]. unfold roomAhead.
    destruct (snake g) as [|head body]; [lia|].
    apply Forall_inv in Hins. destruct Hins as [Hx Hy].
    destruct (dir g); lia. }
  lia.
Qed.

(** The snake that has turned up at (20,9) reaches the top wall: the loop
    stops by itself within the 40 iterations. *)
Lemma idle_game_ends_witness :
  exists s', mainLoop Win32 40 0 [] (startRun zeros turned_up) = Done s' /\
             gameOver (game s') = true.
Proof.
  eexists. split.
  - vm_compute. reflexivity.
  - apply (idle_game_ends Win32 40 0 zeros turned_up).
    + exact turned_up_reachable.
    + lia.
    + vm_compute. reflexivity.
Defined.

Lemma nonincreasing_snoc (l : list Z) (d : Z) :
  nonincreasing l -> Forall (fun e => d <= e) l -> nonincreasing (l ++ [d]).
Proof.
  induction l as [|a [|b l] IH]; intros Hl Hd.
  - exact I.
  - split; [|exact I]. now apply Forall_inv in Hd.
  - destruct Hl as [Hba Hl]. split; [exact Hba|].
    apply IH; [exact Hl | now apply Forall_inv_tail in Hd].
Qed.

(** Within a game the score never goes down from one frame to the next. *)
Lemma frame_score_grows (p : Platform) (fuel : nat) (kb kb' : list ascii)
  (r r' : Rand) (g g' : Game) :
  game_inv g -> frame p fuel kb r g = Done (kb', r', g') ->
  0 <= score g <= score g' /\ score g' <= 7970.
Proof.
  intros Hinv H.
  pose proof (frame_inv _ _ _ _ _ _ _ _ Hinv H) as Hinv'.
  destruct (frame_NoDup _ _ _ _ _ _ _ _ (inv_nodup g Hinv) H) as [_ Hlen].
  pose proof (body_fits g' _ (inv_nodup g' Hinv') (inv_inside g' Hinv')) as Hfit.
  rewrite (inv_width g' Hinv'), (inv_height g' Hinv') in Hfit.
  change (Z.to_nat 40 * Z.to_nat 20)%nat with 800%nat in Hfit.
  pose proof (inv_length g Hinv).
  rewrite (inv_score g Hinv), (inv_score g' Hinv'). lia.
Qed.

Lemma pace_loop (p : Platform) (fuel : nat) :
  forall (n : nat) (keys : list (list ascii)) (s s' : Run),
    reachable (game s) ->
    Forall (fun d => 40 <= d <= 120 /\ delay (score (game s)) <= d) (sleeps s) ->
    nonincreasing (sleeps s) ->
    length (screens s) = length (sleeps s) ->
    mainLoop p n fuel keys s = Done s' ->
    Forall (fun d => 40 <= d <= 120) (sleeps s') /\
    nonincreasing (sleeps s') /\
    (length (sleeps s') <= length (sleeps s) + n)%nat /\
    length (screens s') = length (sleeps s').
Proof.
  induction n as [|n IH]; intros keys s s' Hreach Hall Hsorted Hcount H.
  - injection H as <-. split; [|split; [exact Hsorted | split; [lia | exact Hcount]]].
    eapply Forall_impl; [|exact Hall]. intros d [Hd _]. exact Hd.
  - destruct (gameOver (game s)) eqn:Hg.
    { rewrite mainLoop_over in H by exact Hg. injection H as <-.
      split; [|split; [exact Hsorted | split; [lia | exact Hcount]]].
      eapply Forall_impl; [|exact Hall]. intros d [Hd _]. exact Hd. }
    destruct (mainLoop_step _ _ _ _ _ _ Hg H) as [kb' [r' [g' [Hf Hrest]]]].
    pose proof (reachable_inv _ Hreach) as Hinv.
    destruct (frame_score_grows _ _ _ _ _ _ _ _ Hinv Hf) as [[H0 Hup] Hmax].
    assert (Hra : Int32.in_range (score (game s)))
      by (unfold Int32.in_range, Int32.min_int, Int32.max_int; lia).
    assert (Hrb : Int32.in_range (score g'))
      by (unfold Int32.in_range, Int32.min_int, Int32.max_int; lia).
    pose proof (Z.quot_le_mono _ _ 5 ltac:(lia) Hup) as Hq.
    pose proof (Z.quot_le_mono 0 (score g') 5 ltac:(lia) ltac:(lia)) as Hq0.
    change (Z.quot 0 5) with 0 in Hq0.
    assert (Hd' : 40 <= delay (score g') <= 120
                  /\ delay (score g') <= delay (score (game s))).
    { rewrite (delay_unclamped _ Hra), (delay_unclamped _ Hrb). lia. }
    apply IH in Hrest; cbn [game sleeps screens].
    + destruct Hrest as [Ha [Hb [Hc Hd]]]. split; [exact Ha|].
      split; [exact Hb|]. split; [|exact Hd].
      cbn [sleeps] in Hc. rewrite length_app in Hc. simpl in Hc. lia.
    + exact (reach_frame _ _ _ _ _ _ _ _ Hreach Hg Hf).
    + apply Forall_app. split.
      * eapply Forall_impl; [|exact Hall]. cbv beta. intros d Hd. lia.
      * constructor; [lia | constructor].
    + apply nonincreasing_snoc; [exact Hsorted|].
      eapply Forall_impl; [|exact Hall]. cbv beta. intros d Hd. lia.
    + rewrite !length_app. simpl. lia.
Qed.

(** X18.  The game never slows down.  In the first [n] iterations of the
    loop of [main], from any state of a running game and whatever is
    typed, every delay slept lies between 40 and 120 milliseconds and none
    is longer than the one before it; one screen is drawn per delay, and
    there are at most [n] of them. *)
Theorem game_never_slows_down (p : Platform) (n fuel : nat)
  (keys : list (list ascii)) (r : Rand) (g : Game) (s' : Run) :
  reachable g ->
  mainLoop p n fuel keys (startRun r g) = Done s' ->
  Forall (fun d => 40 <= d <= 120) (sleeps s') /\
  nonincreasing (sleeps s') /\
  (length (sleeps s') <= n)%nat /\
  length (screens s') = length (sleeps s').
Proof.
  intros Hreach H.
  apply (pace_loop p fuel n keys (startRun r g) s') in H.
  - exact H.
  - exact Hreach.
  - constructor.
  - exact I.
  - reflexivity.
Qed.

(** Three iterations of the fresh game, the key [s] typed before the
    second. *)
Lemma game_never_slows_down_witness :
  exists s',
    mainLoop Win32 3 0 [[]; ["s"%char]] (startRun zeros fresh_game) = Done s' /\
    Forall (fun d => 40 <= d <= 120) (sleeps s') /\
    nonincreasing (sleeps s') /\
    (length (sleeps s') <= 3)%nat /\
    length (screens s') = length (sleeps s').
Proof.
  eexists. split.
  - vm_compute. reflexivity.
  - apply (game_never_slows_down Win32 3 0 [[]; ["s"%char]] zeros fresh_game).
    + exact fresh_game_reachable.
    + vm_compute. reflexivity.
Defined.

(** ** The food stays inside the grid *)

Lemma placeFood_inBounds (fuel : nat) :
  forall (r r' : Rand) (g g' : Game),
    0 < width g -> 0 < height g -> rand_ok r ->
    placeFood fuel r g = Done (r', g') ->
    inBounds g (food g') /\ rand_ok r'.
Proof.
  induction fuel as [|fuel IH]; intros r r' g g' Hw Hh Hr H; [discriminate|].
  rewrite placeFood_step in H by lia.
  assert (Hr2 : rand_ok (fun n => r (S (S n)))) by (intros n; apply Hr).
  destruct (onSnake (sample g r 0) (snake g)).
  - exact (IH _ _ _ _ Hw Hh Hr2 H).
  - injection H as <- <-. split; [|exact Hr2].
    cbn [food set_food]. now apply sample_inBounds.
Qed.

(** X19.  As long as [rand()] returns values in its range, the food is
    always on a cell of the grid: [initGame] puts it there, and a frame
    that starts with the food inside the grid returns with the food inside
    the grid. *)
Theorem food_inside_grid :
  (forall fuel seeded r g0 g,
     0 < width g0 -> 0 < height g0 -> rand_ok seeded ->
     initGame fuel seeded g0 = Done (r, g) ->
     inBounds g (food g) /\ rand_ok r) /\
  (forall p fuel kb kb' r r' g g',
     rand_ok r -> inBounds g (food g) ->
     frame p fuel kb r g = Done (kb', r', g') ->
     inBounds g' (food g') /\ rand_ok r').
Proof.
  split.
  - intros fuel seeded r g0 g Hw Hh Hr H. unfold initGame in H.
    destruct (placeFood fuel seeded _) as [[r1 g1]| |] eqn:E; try discriminate.
    injection H as <- <-.
    destruct (placeFood_inBounds fuel seeded r1
                (set_score 0 (set_dir RIGHT (set_snake (startBody g0) g0)))
                g1 Hw Hh Hr E) as [Hin Hr1].
    destruct (placeFood_frame _ _ _ _ _ E) as [c [-> _]].
    split; [exact Hin | exact Hr1].
  - intros p fuel kb kb' r r' g g' Hr Hin H. unfold frame in H.
    pose proof (input_frame p kb g) as Hfr. cbv zeta in Hfr.
    destruct (input p kb g) as [kb1 g1]. cbn [snd] in Hfr.
    destruct Hfr as [Hs [Hf [_ [Hw Hh]]]].
    assert (Hin1 : inBounds g1 (food g1))
      by (unfold inBounds in *; now rewrite Hf, Hw, Hh).
    clear Hs Hf Hw Hh Hin.
    destruct (logic fuel r g1) as [[r1 g2]| |] eqn:E; try discriminate.
    injection H as _ <- <-.
    destruct (snake g1) as [|head body] eqn:Es.
    { unfold logic in E. rewrite Es in E. discriminate. }
    assert (Hhd : hd_error (snake g1) = Some head) by now rewrite Es.
    destruct (hitsWall g1 (newHead (dir g1) head)) eqn:Ew.
    { rewrite (logic_wall fuel r g1 head Hhd Ew) in E.
      injection E as <- <-. split; [exact Hin1 | exact Hr]. }
    destruct (onSnake (newHead (dir g1) head) (snake g1)) eqn:Eo.
    { rewrite (logic_self fuel r g1 head Hhd Ew Eo) in E.
      injection E as <- <-. split; [exact Hin1 | exact Hr]. }
    rewrite (logic_move fuel r g1 head Hhd Ew Eo) in E. cbv zeta in E.
    destruct (_ && _) in E.
    + assert (Hpos : 0 < width g1 /\ 0 < height g1)
        by (unfold inBounds in Hin1; lia).
      destruct Hpos as [Hw Hh].
      destruct (placeFood_inBounds fuel r r1
                  (set_score (Int32.wrap (score g1 + 10))
                     (set_snake (newHead (dir g1) head :: snake g1) g1))
                  g2 Hw Hh Hr E) as [Hin2 Hr2].
      destruct (placeFood_frame _ _ _ _ _ E) as [c [-> _]].
      split; [exact Hin2 | exact Hr2].
    + injection E as <- <-. split; [exact Hin1 | exact Hr].
Qed.

Lemma food_inside_grid_witness :
  (inBounds fresh_game (food fresh_game) /\ rand_ok zeros) /\
  (inBounds turned_up (food turned_up) /\ rand_ok zeros).
Proof.
  split.
  - apply (proj1 food_inside_grid 1%nat zeros zeros globals0 fresh_game).
    + reflexivity.
    + reflexivity.
    + exact zeros_ok.
    + reflexivity.
  - apply (proj2 food_inside_grid Posix 0%nat ["w"%char] [] zeros zeros
             fresh_game turned_up).
    + exact zeros_ok.
    + unfold inBounds. simpl. lia.
    + reflexivity.
Defined.
